(** * A Hacker News scraper: extraction, enrichment and the worker loop

  Shallow embedding of [main.py]: the two extractors [parse_stories] and
  [parse_comments], the enrichment task [fetch_story_with_comments], the
  [worker] loop and the set-up done by [main].

  Two things the program reaches through libraries are taken as given.
  The markup parser [BeautifulSoup(html, "html.parser")] is a function from
  text to a tree of page elements; the extractors are embedded from the
  statement after that call, on the tree.  The network is a function from a
  URL to either a body or an exception: a page does not change during a run.

  Text is a string of ASCII characters.  Story dictionaries are objects on a
  heap, named by reference, because the program changes them in place and
  collects references to them. *)

From Stdlib Require Import String Ascii List Arith Lia Bool.
From stdpp Require Import base option list gmap strings pretty.
Import ListNotations.

Local Open Scope string_scope.
Local Open Scope list_scope.

(** ** Text *)

Module Str.

(** [str.isspace] on the ASCII range: TAB, LF, VT, FF, CR, the four
    separators FS GS RS US, and the space. *)
Definition isspace (c : ascii) : bool :=
  let n := nat_of_ascii c in
  (Nat.leb 9 n && Nat.leb n 13) || (Nat.leb 28 n && Nat.leb n 32).

Fixpoint lstrip (s : string) : string :=
  match s with
  | EmptyString => EmptyString
  | String c s' => if isspace c then lstrip s' else s
  end.

Fixpoint rstrip (s : string) : string :=
  match s with
  | EmptyString => EmptyString
  | String c s' =>
      match rstrip s' with
      | EmptyString => if isspace c then EmptyString else String c EmptyString
      | t => String c t
      end
  end.

(** [s.strip()] *)
Definition strip (s : string) : string := rstrip (lstrip s).

Definition is_empty (s : string) : bool :=
  match s with EmptyString => true | _ => false end.

(** The maximal runs of non-space characters of [s], as the pattern
    [\S+] finds them; [cur] is the run being read. *)
Fixpoint findall_nonspace (cur s : string) : list string :=
  match s with
  | EmptyString => if is_empty cur then [] else [cur]
  | String c s' =>
      if isspace c
      then (if is_empty cur then findall_nonspace "" s'
            else cur :: findall_nonspace "" s')
      else findall_nonspace (cur +:+ String c "") s'
  end.

(** [sep.join(parts)] *)
Definition join (sep : string) (parts : list string) : string :=
  String.concat sep parts.

End Str.

(** ** The parsed document *)

Module Soup.

(** A page element is a string of text, a comment (standing for every
    kind of string that [get_text] leaves out) or a tag with a name, an
    attribute dictionary and contents.  Tag and attribute names are
    lower-case, as the HTML parser stores them.  The value of [class] is
    kept as written; [classes] splits it the way the library does. *)
#[warnings="-register-all"]
Inductive PageElement : Type :=
| NavigableString (s : string)
| Comment (s : string)
| Tag (name : string) (attrs : gmap string string)
      (contents : list PageElement).

(** [el.get(key)]: the attribute, or [None]. *)
Definition get (key : string) (el : PageElement) : option string :=
  match el with
  | Tag _ attrs _ => attrs !! key
  | _ => None
  end.

Definition classes (el : PageElement) : list string :=
  match get "class" el with
  | Some v => Str.findall_nonspace "" v
  | None => []
  end.

(** *** Text of an element *)

(** The strings below an element in document order, comments left out. *)
Fixpoint all_strings (el : PageElement) : list string :=
  match el with
  | NavigableString s => [s]
  | Comment _ => []
  | Tag _ _ contents => flat_map all_strings contents
  end.

(** [el.get_text(separator, strip)]: with [strip], every string is
    stripped and the ones left empty are dropped. *)
Definition get_text (separator : string) (strip : bool)
    (el : PageElement) : string :=
  let parts :=
    if strip
    then List.filter (fun s => negb (Str.is_empty s))
                     (map Str.strip (all_strings el))
    else all_strings el in
  Str.join separator parts.

(** [el.text] *)
Definition text (el : PageElement) : string := get_text "" false el.

(** *** Selectors *)

(** A compound selector: an optional type and an optional class. *)
Record compound : Type := Compound {
  sel_name : option string;
  sel_class : option string
}.

(** The selectors of the program: a compound selector [c], or [p > c]
    (an element matching [c] whose parent matches [p]). *)
Inductive selector : Type :=
| Single (c : compound)
| Child (p c : compound).

Definition match_compound (c : compound) (el : PageElement) : bool :=
  match el with
  | Tag name _ _ =>
      match sel_name c with
      | Some n => bool_decide (n = name)
      | None => true
      end
      &&
      match sel_class c with
      | Some k => bool_decide (k ∈ classes el)
      | None => true
      end
  | _ => false
  end.

Definition matches (sel : selector) (parent el : PageElement) : bool :=
  match sel with
  | Single c => match_compound c el
  | Child p c => match_compound c el && match_compound p parent
  end.

(** The matches at [el] and below it, [el] first, given its parent. *)
Fixpoint select_from (sel : selector) (parent el : PageElement)
    : list PageElement :=
  match el with
  | Tag _ _ contents =>
      (if matches sel parent el then [el] else [])
      ++ flat_map (select_from sel el) contents
  | _ => []
  end.

(** [scope.select(sel)]: the descendants of [scope] that match, in
    document order.  [scope] itself is not a candidate, but it is the
    parent of its children. *)
Definition select (sel : selector) (scope : PageElement)
    : list PageElement :=
  match scope with
  | Tag _ _ contents => flat_map (select_from sel scope) contents
  | _ => []
  end.

(** [scope.select_one(sel)]: the first match, or [None]. *)
Definition select_one (sel : selector) (scope : PageElement)
    : option PageElement :=
  head (select sel scope).

(** [".athing"] *)
Definition athing : selector := Single (Compound None (Some "athing")).
(** [".titleline > a"] *)
Definition titleline_a : selector :=
  Child (Compound None (Some "titleline")) (Compound (Some "a") None).
(** ["tr.comtr"] *)
Definition tr_comtr : selector := Single (Compound (Some "tr") (Some "comtr")).
(** [".hnuser"] *)
Definition hnuser : selector := Single (Compound None (Some "hnuser")).
(** [".commtext"] *)
Definition commtext : selector := Single (Compound None (Some "commtext")).

End Soup.

(** ** Exceptions and results *)

(** The exceptions that reach the program: a missing dictionary key, the
    errors of a request, and the group a task group raises when its body or
    one of its tasks failed. *)
Inductive exn : Type :=
| KeyError (key : string)
| ClientError
| TimeoutError
| ExceptionGroup.

Inductive result (A : Type) : Type :=
| Ok (a : A)
| Raise (e : exn).
Arguments Ok {A} a.
Arguments Raise {A} e.

#[global] Instance result_ret : MRet result := fun A a => Ok a.
#[global] Instance result_bind : MBind result := fun A B f m =>
  match m with
  | Ok a => f a
  | Raise e => Raise e
  end.

Definition is_ok {A} (r : result A) : bool :=
  match r with Ok _ => true | Raise _ => false end.

(** [el[key]]: the attribute, or [KeyError]. *)
Definition getitem (key : string) (el : Soup.PageElement) : result string :=
  match Soup.get key el with
  | Some v => Ok v
  | None => Raise (KeyError key)
  end.

(** ** Records *)

(** A comment dictionary, [{"user": ..., "text": ...}]. *)
Record comment : Type := Comment {
  user : string;
  text : string
}.

(** A story dictionary: [{"id": ..., "title": ..., "link": ...}] as the
    extractor builds it, [comments] being [None] until the key is set. *)
Record story : Type := Story {
  id : string;
  title : string;
  link : string;
  comments : option (list comment)
}.

(** ** The extractors *)

(** The body of the loop of [parse_stories] over the selected rows;
    [stories] is the list built so far. *)
Fixpoint parse_stories_loop (items : list Soup.PageElement)
    (stories : list story) : result (list story) :=
  match items with
  | [] => Ok stories
  | item :: items' =>
      let title_tag := Soup.select_one Soup.titleline_a item in
      let story_id := Soup.get "id" item in
      match title_tag, story_id with
      | Some title_tag, Some story_id =>
          if Str.is_empty story_id then parse_stories_loop items' stories
          else
            let title := Str.strip (Soup.text title_tag) in
            href ← getitem "href" title_tag;
            let link := Str.strip href in
            parse_stories_loop items'
              (stories ++ [Story story_id title link None])
      | _, _ => parse_stories_loop items' stories
      end
  end.

Definition parse_stories (soup : Soup.PageElement) : result (list story) :=
  parse_stories_loop (Soup.select Soup.athing soup) [].

Fixpoint parse_comments_loop (rows : list Soup.PageElement)
    (comments : list comment) : list comment :=
  match rows with
  | [] => comments
  | row :: rows' =>
      let user_tag := Soup.select_one Soup.hnuser row in
      let comment_tag := Soup.select_one Soup.commtext row in
      match user_tag, comment_tag with
      | Some user_tag, Some comment_tag =>
          let user := Str.strip (Soup.text user_tag) in
          let text := Soup.get_text " " true comment_tag in
          parse_comments_loop rows' (comments ++ [Comment user text])
      | _, _ => parse_comments_loop rows' comments
      end
  end.

Definition parse_comments (soup : Soup.PageElement) : list comment :=
  parse_comments_loop (Soup.select Soup.tr_comtr soup) [].


(** *** Rows, as the specification speaks of them

    A listing row is well formed when it has a title anchor and a row
    identifier (an [id] attribute that is not empty); a comment row when it
    has a username element and a comment body. *)

Definition title_anchor (item : Soup.PageElement) : option Soup.PageElement :=
  Soup.select_one Soup.titleline_a item.

Definition has_row_id (item : Soup.PageElement) : bool :=
  match Soup.get "id" item with
  | Some story_id => negb (Str.is_empty story_id)
  | None => false
  end.

Definition well_formed_row (item : Soup.PageElement) : bool :=
  match title_anchor item with
  | Some _ => has_row_id item
  | None => false
  end.

(** The anchor of the row carries an [href]. *)
Definition anchor_has_href (item : Soup.PageElement) : bool :=
  match title_anchor item with
  | Some a => match Soup.get "href" a with Some _ => true | None => false end
  | None => false
  end.

(** A row with a title anchor and an identifier whose anchor has no
    [href]. *)
Definition row_raises (item : Soup.PageElement) : bool :=
  well_formed_row item && negb (anchor_has_href item).

(** The record of a well-formed row whose anchor has an [href]. *)
Definition story_of_row (item : Soup.PageElement) : option story :=
  match title_anchor item, Soup.get "id" item with
  | Some a, Some story_id =>
      match Soup.get "href" a with
      | Some href =>
          Some (Story story_id (Str.strip (Soup.text a)) (Str.strip href) None)
      | None => None
      end
  | _, _ => None
  end.

Definition well_formed_comment_row (row : Soup.PageElement) : bool :=
  match Soup.select_one Soup.hnuser row, Soup.select_one Soup.commtext row with
  | Some _, Some _ => true
  | _, _ => false
  end.

Definition comment_of_row (row : Soup.PageElement) : option comment :=
  match Soup.select_one Soup.hnuser row, Soup.select_one Soup.commtext row with
  | Some user_tag, Some comment_tag =>
      Some (Comment (Str.strip (Soup.text user_tag))
                    (Soup.get_text " " true comment_tag))
  | _, _ => None
  end.

(** The element is itself a listing row, or a comment row. *)
Definition is_listing_row (el : Soup.PageElement) : bool :=
  Soup.matches Soup.athing el el.

Definition is_comment_row (el : Soup.PageElement) : bool :=
  Soup.matches Soup.tr_comtr el el.

(** A string that is empty or starts with a character that is not a
    blank. *)
Definition starts_clean (s : string) : Prop :=
  match s with
  | EmptyString => True
  | String c _ => Str.isspace c = false
  end.

(** A story record as the extractor leaves it. *)
Definition story_clean (s : story) : Prop :=
  id s <> EmptyString
  /\ Str.strip (title s) = title s
  /\ Str.strip (link s) = link s
  /\ comments s = None.

(** ** Fetching and enrichment *)

(** The URL templates, applied: [ITEM_URL.format(story_id)] and
    [BASE_URL.format(page)]. *)
Definition ITEM_URL (story_id : string) : string :=
  "https://news.ycombinator.com/item?id=" +:+ story_id.

Definition BASE_URL (page : nat) : string :=
  "https://news.ycombinator.com/news?p=" +:+ pretty page.

#[global] Instance story_inhabited : Inhabited story :=
  populate (Story "" "" "" None).

(** The objects the program shares.  Story dictionaries live in [heap] and
    are named by their index; [queue] is the work queue, front first, and
    [all_stories] the list of references collected so far. *)
Record shared : Type := Shared {
  queue : list string;
  heap : list story;
  all_stories : list nat
}.

Inductive outcome : Type :=
| Returned
| Raised (e : exn).

(** ** Sample documents *)

Module Examples.

Definition el (name : string) (attrs : list (string * string))
    (contents : list Soup.PageElement) : Soup.PageElement :=
  Soup.Tag name (list_to_map attrs) contents.

Definition doc (contents : list Soup.PageElement) : Soup.PageElement :=
  Soup.Tag "[document]" ∅ contents.

Definition rowA : Soup.PageElement :=
  el "tr" [("class", "athing submission"); ("id", "1")]
    [el "td" [("class", "title")]
       [el "span" [("class", "titleline")]
          [el "a" [("href", "http://x")] [Soup.NavigableString " Hello "]]]].

Definition rowB : Soup.PageElement :=
  el "tr" [("class", "athing"); ("id", "2")]
    [el "td" [("class", "title")] [Soup.NavigableString "no anchor"]].

(** A row with an identifier and a title anchor that has no [href]:
    [<tr class="athing" id="3"><td class="title"><span class="titleline">
    <a>Show</a></span></td></tr>]. *)
Definition rowC : Soup.PageElement :=
  el "tr" [("class", "athing"); ("id", "3")]
    [el "td" [("class", "title")]
       [el "span" [("class", "titleline")]
          [el "a" [] [Soup.NavigableString "Show"]]]].

(** Two comment rows, the second without a body. *)
Definition comment1 : Soup.PageElement :=
  el "tr" [("class", "athing comtr"); ("id", "11")]
    [el "td" []
       [el "a" [("class", "hnuser"); ("href", "user?id=ann")]
          [Soup.NavigableString "ann"];
        el "div" [("class", "commtext c00")]
          [Soup.NavigableString " First "; Soup.Comment "hidden";
           el "p" [] [Soup.NavigableString "second  line "]]]].

Definition comment2 : Soup.PageElement :=
  el "tr" [("class", "athing comtr"); ("id", "12")]
    [el "td" [] [el "a" [("class", "hnuser")] [Soup.NavigableString "bob"]]].

(** A listing page and an item page as text, the trees the parser makes of
    them, and a network that serves the first listing page and item 1. *)
Definition listing_html : string := "<html>listing 1</html>".
Definition item_html : string := "<html>item 1</html>".

Definition parser (html : string) : Soup.PageElement :=
  if String.eqb html listing_html then doc [rowA; rowB]
  else if String.eqb html item_html then doc [comment1; comment2]
  else doc [].

Definition session (url : string) : result string :=
  if String.eqb url (BASE_URL 1) then Ok listing_html
  else if String.eqb url (ITEM_URL "1") then Ok item_html
  else if String.eqb url (BASE_URL 2) then Ok ""
  else Raise ClientError.

(** The same network with item 1 out of reach. *)
Definition session_down (url : string) : result string :=
  if String.eqb url (BASE_URL 1) then Ok listing_html
  else Raise TimeoutError.

End Examples.

(** ** The pipeline *)

Section Pipeline.

(** The markup parser and the session the worker opens. *)
Variable BeautifulSoup : string -> Soup.PageElement.
Variable session_get : string -> result string.

Definition fetch (url : string) : result string := session_get url.

(** [story["comments"] = cs] on the dictionary at reference [ref]. *)
Definition set_comments (cs : list comment) (d : story) : story :=
  Story (id d) (title d) (link d) (Some cs).

(** The enrichment task.  The dictionary is changed in place and the same
    reference is returned.  References are made by allocation only, so the
    lookup is the total one. *)
Definition fetch_story_with_comments (h : list story) (ref : nat)
    : result (list story * nat) :=
  comment_html ← fetch (ITEM_URL (id (h !!! ref)));
  let cs := parse_comments (BeautifulSoup comment_html) in
  Ok (alter (set_comments cs) ref h, ref).

(** Leaving the task group: every task created in it is awaited.  When all
    of them return, so does the group; when one raises, the others are
    cancelled and the group raises [ExceptionGroup].  Each task writes its
    own dictionary only, so the tasks are run here in creation order. *)
Fixpoint task_group_join (h : list story) (tasks : list nat)
    : result (list story) :=
  match tasks with
  | [] => Ok h
  | ref :: tasks' =>
      match fetch_story_with_comments h ref with
      | Ok (h', _) => task_group_join h' tasks'
      | Raise _ => Raise ExceptionGroup
      end
  end.

(** The dictionaries an extractor returns are new objects. *)
Definition alloc (h : list story) (dicts : list story)
    : list story * list nat :=
  (h ++ dicts, seq (length h) (length dicts)).

(** The body of the task group for a claimed page: fetch, extract, and
    unless the page has no stories, one task per story, all awaited.  An
    exception of the body leaves the group as [ExceptionGroup] too. *)
Definition task_group_body (h : list story) (page : string)
    : result (list story * list nat) :=
  match fetch page with
  | Raise _ => Raise ExceptionGroup
  | Ok html =>
      match parse_stories (BeautifulSoup html) with
      | Raise _ => Raise ExceptionGroup
      | Ok dicts =>
          let '(h1, stories) := alloc h dicts in
          match stories with
          | [] => Ok (h1, [])
          | _ :: _ =>
              h2 ← task_group_join h1 stories;
              Ok (h2, stories)
          end
      end
  end.

(** The loop of [worker], by recursion on the queue it drains.  The claim
    on an empty queue is the [Empty] that the loop catches.  When the task
    group raises, the dictionaries of that page are referenced by nothing
    any more, and the heap is given back as it was before the page. *)
Fixpoint worker_loop (queue : list string) (h : list story)
    (all_stories : list nat) : outcome * shared :=
  match queue with
  | [] => (Returned, Shared [] h all_stories)
  | page :: queue' =>
      match task_group_body h page with
      | Raise e => (Raised e, Shared queue' h all_stories)
      | Ok (h', []) => (Returned, Shared queue' h' all_stories)
      | Ok (h', stories) => worker_loop queue' h' (all_stories ++ stories)
      end
  end.

Definition worker (s : shared) : outcome * shared :=
  worker_loop (queue s) (heap s) (all_stories s).

(** *** What a page does to the loop

    The stories of a listing page, and the three ways the body of the task
    group can end on it: no stories (the loop breaks), stories that were all
    enriched (the loop goes on), or an exception from the listing request,
    the extraction or one of the item requests. *)

Definition listing (page : string) : result (list story) :=
  html ← fetch page; parse_stories (BeautifulSoup html).

Inductive page_kind : Type :=
| NoStories
| Enriched
| Fails.

Definition item_ok (d : story) : bool := is_ok (fetch (ITEM_URL (id d))).

Definition kind_of (page : string) : page_kind :=
  match listing page with
  | Raise _ => Fails
  | Ok [] => NoStories
  | Ok dicts => if forallb item_ok dicts then Enriched else Fails
  end.

(** The first entry of the queue on which the loop does not go on, with
    the entries behind it. *)
Fixpoint first_stop (queue : list string) : option (string * list string) :=
  match queue with
  | [] => None
  | page :: queue' =>
      match kind_of page with
      | Enriched => first_stop queue'
      | _ => Some (page, queue')
      end
  end.

(** *** Several workers on the same objects

    In pooled mode every thread runs [worker] on the same queue and the same
    result list.  A worker touches them at two places, the claim and the
    [extend]; between the two it works on dictionaries nobody else holds.
    [pc] is where a worker stands, [worker_step] what it does next, and
    [event] the operation on the shared objects that this step performs. *)

Inductive pc : Type :=
| LoopTop
| Claimed (page : string)
| Joined (stories : list nat)
| Halted
| Failed (e : exn).

Inductive event : Type :=
| Get (page : string)
| GetEmpty
| Extend (stories : list nat).

Definition worker_step (w : pc) (s : shared) : pc * shared * list event :=
  match w with
  | LoopTop =>
      match queue s with
      | [] => (Halted, s, [GetEmpty])
      | page :: queue' =>
          (Claimed page, Shared queue' (heap s) (all_stories s), [Get page])
      end
  | Claimed page =>
      match task_group_body (heap s) page with
      | Raise e => (Failed e, s, [])
      | Ok (h', []) => (Halted, Shared (queue s) h' (all_stories s), [])
      | Ok (h', stories) =>
          (Joined stories, Shared (queue s) h' (all_stories s), [])
      end
  | Joined stories =>
      (LoopTop, Shared (queue s) (heap s) (all_stories s ++ stories),
       [Extend stories])
  | Halted => (Halted, s, [])
  | Failed e => (Failed e, s, [])
  end.

(** A pool: where each worker stands, and the shared objects. *)
Definition pool : Type := list pc * shared.

(** Worker [i] takes its next step; no such worker, no step.  The trace
    names the worker with each operation. *)
Definition pool_step (i : nat) (p : pool) : pool * list (nat * event) :=
  match p.1 !! i with
  | Some w =>
      let '(w', s', ev) := worker_step w p.2 in
      ((<[i := w']> p.1, s'), map (pair i) ev)
  | None => (p, [])
  end.

(** The workers scheduled in the order [sched] gives, with the operations
    on the shared objects in the order they happen. *)
Fixpoint run (sched : list nat) (p : pool) : pool * list (nat * event) :=
  match sched with
  | [] => (p, [])
  | i :: sched' =>
      let '(p1, ev) := pool_step i p in
      let '(p2, evs) := run sched' p1 in
      (p2, ev ++ evs)
  end.

Definition finished (w : pc) : bool :=
  match w with
  | Halted | Failed _ => true
  | _ => false
  end.

(** The pages a trace took from the queue, in order. *)
Definition gets (evs : list (nat * event)) : list string :=
  flat_map (fun ev => match ev.2 with Get page => [page] | _ => [] end) evs.


(** The story at a reference was enriched from [d]: same identifier, title
    and link, and the comments of the item page. *)
Definition enriched (d d' : story) : Prop :=
  id d' = id d /\ title d' = title d /\ link d' = link d
  /\ exists html, fetch (ITEM_URL (id d)) = Ok html
       /\ comments d' = Some (parse_comments (BeautifulSoup html)).

(** A request made for [page] raises, or its extraction does: the listing
    itself, or the item page of one of its stories. *)
Definition raises (page : string) : Prop :=
  (exists e, listing page = Raise e)
  \/ (exists dicts d, listing page = Ok dicts /\ In d dicts
                      /\ exists e, fetch (ITEM_URL (id d)) = Raise e).

(** The dictionary at [r] has its [comments] key. *)
Definition has_comments (h : list story) (r : nat) : Prop :=
  exists d, h !! r = Some d /\ is_Some (comments d).

(** Every story in the result list, and every story a worker is about to
    append, has its comments. *)
Definition collected_ok (p : pool) : Prop :=
  Forall (has_comments (heap p.2)) (all_stories p.2)
  /\ forall i stories,
       p.1 !! i = Some (Joined stories) ->
       Forall (has_comments (heap p.2)) stories.

(** Where a worker stands once [worker] is over. *)
Definition pc_of (o : outcome) : pc :=
  match o with
  | Returned => Halted
  | Raised e => Failed e
  end.

(** *** The orchestrator *)

(** Lines 76 to 79 of [main]: the queue of the hundred listing pages and
    an empty result list. *)
Definition setup : shared := Shared (map BASE_URL (seq 1 100)) [] [].

(** The number of workers of each mode. *)
Definition workers (multithreaded : bool) : nat :=
  if multithreaded then 8 else 1.

Definition main_pool (multithreaded : bool) : pool :=
  (replicate (workers multithreaded) LoopTop, setup).

(** The single-worker branch up to the last line: the number of stories
    handed to the report, or the exception that [asyncio.run] lets through. *)
Definition main_single : result nat :=
  match worker setup with
  | (Returned, s) => Ok (length (all_stories s))
  | (Raised e, _) => Raise e
  end.

(** The stories a single worker gets to: those of the listing pages at the
    front of the queue on which the loop goes on. *)
Fixpoint collected (q : list string) : list story :=
  match q with
  | [] => []
  | page :: q' =>
      match kind_of page, listing page with
      | Enriched, Ok dicts => dicts ++ collected q'
      | _, _ => []
      end
  end.

(** A dictionary on the heap stems from a page of [q]: one of the stories
    of its listing, enriched. *)
Definition stems_from (q : list string) (d' : story) : Prop :=
  exists page dicts d,
    In page q /\ listing page = Ok dicts /\ In d dicts /\ enriched d d'.

(** The references a worker holds between the end of its task group and
    the [extend], and those held by all the workers of a pool. *)
Definition held_of (w : pc) : list nat :=
  match w with
  | Joined stories => stories
  | _ => []
  end.

Definition held (ws : list pc) : list nat := flat_map held_of ws.

(** The steps a worker has before it at most, not counting the pages it
    may still claim: the claim, the task group, the [extend]. *)
Definition pc_weight (w : pc) : nat :=
  match w with
  | LoopTop => 1
  | Claimed _ => 3
  | Joined _ => 2
  | Halted | Failed _ => 0
  end.

(** A bound on the steps a pool can still take: three for every entry of
    the queue, and what each worker has before it. *)
Definition fuel (p : pool) : nat :=
  3 * length (queue p.2) + sum_list_with pc_weight p.1.

(** A stretch of a schedule in which each of [n] workers gets a turn. *)
Definition covers (n : nat) (block : list nat) : Prop :=
  forall i, i < n -> In i block.

(** The references in the result list and in the workers' hands are the
    references of the heap, each once. *)
Definition each_once (p : pool) : Prop :=
  all_stories p.2 ++ held p.1 ≡ₚ seq 0 (length (heap p.2)).

(** The pages still in the queue and the pages claimed are pages of [q],
    and every dictionary stems from a page of [q]. *)
Definition pages_known (q : list string) (p : pool) : Prop :=
  (forall page, In page (queue p.2) -> In page q)
  /\ (forall i page, p.1 !! i = Some (Claimed page) -> In page q)
  /\ Forall (stems_from q) (heap p.2).

(** The stories a page gives to the result list when its task group is
    over: those of its listing if all of them were enriched, none if the page
    has no stories or fails. *)
Definition yield (page : string) : list story :=
  match kind_of page, listing page with
  | Enriched, Ok dicts => dicts
  | _, _ => []
  end.

(** The pages the workers of a pool have claimed and are still at. *)
Definition claimed_of (w : pc) : list string :=
  match w with
  | Claimed page => [page]
  | _ => []
  end.

Definition claimed (ws : list pc) : list string := flat_map claimed_of ws.

(** Every page of [q0] is accounted for: it is still in the queue, or a
    worker is at it, or it is done, and the heap holds the enriched stories
    of the pages that are done, in the order they were done. *)
Definition accounted (q0 : list string) (p : pool) : Prop :=
  exists done,
    done ++ claimed p.1 ++ queue p.2 ≡ₚ q0
    /\ Forall2 enriched (flat_map yield done) (heap p.2).

(** The pooled branch of [main] up to the last line.  The executor is
    left when its eight threads are over; what a worker raised stays in the
    future nobody reads.  [sched] is the order in which the threads happen
    to run; the result is the number of stories handed to the report, or
    [None] as long as a thread is still running. *)
Definition main_pooled (sched : list nat) : option nat :=
  let p := (run sched (main_pool true)).1 in
  if forallb finished p.1 then Some (length (all_stories p.2)) else None.

(** * Properties *)

(** ** Enrichment *)

Lemma fetch_story_with_comments_ok h ref html :
  fetch (ITEM_URL (id (h !!! ref))) = Ok html ->
  fetch_story_with_comments h ref =
  Ok (alter (set_comments (parse_comments (BeautifulSoup html))) ref h, ref).
Proof. intros E. unfold fetch_story_with_comments. by rewrite E. Qed.

Lemma fetch_story_with_comments_raise h ref e :
  fetch (ITEM_URL (id (h !!! ref))) = Raise e ->
  fetch_story_with_comments h ref = Raise e.
Proof. intros E. unfold fetch_story_with_comments. by rewrite E. Qed.

Lemma set_comments_enriched cs d html :
  fetch (ITEM_URL (id d)) = Ok html ->
  cs = parse_comments (BeautifulSoup html) ->
  enriched d (set_comments cs d).
Proof.
  intros E ->. repeat split; try reflexivity. exists html. by split.
Qed.

Lemma enriched_again d d1 d2 : enriched d d1 -> enriched d1 d2 -> enriched d d2.
Proof.
  intros (I1 & T1 & L1 & _) (I2 & T2 & L2 & html & E & C).
  repeat split; try congruence. exists html. split; congruence.
Qed.

(** C3. A story made by the story extractor and stored at [ref] goes
    through the enricher, for an item page [html] served for its identifier,
    as follows: the task returns the same reference, the dictionary there
    keeps its id, title and link, its comments are those the comment
    extractor finds in [html], and no other dictionary is touched.  (The
    same holds of any dictionary on the heap.) *)
Theorem fetch_story_with_comments_enriches
    (soup : Soup.PageElement) (dicts h : list story) (ref : nat) (d : story)
    (html : string) :
  parse_stories soup = Ok dicts ->
  In d dicts ->
  h !! ref = Some d ->
  fetch (ITEM_URL (id d)) = Ok html ->
  exists h' d',
    fetch_story_with_comments h ref = Ok (h', ref)
    /\ h' !! ref = Some d'
    /\ id d' = id d /\ title d' = title d /\ link d' = link d
    /\ comments d' = Some (parse_comments (BeautifulSoup html))
    /\ length h' = length h
    /\ forall r, r <> ref -> h' !! r = h !! r.
Proof.
  intros _ _ Hd E.
  assert (h !!! ref = d) as Ht by (by apply list_lookup_total_correct).
  exists (alter (set_comments (parse_comments (BeautifulSoup html))) ref h),
    (set_comments (parse_comments (BeautifulSoup html)) d).
  split; [apply fetch_story_with_comments_ok; by rewrite Ht|].
  split; [by rewrite list_lookup_alter_eq, Hd|].
  repeat split; try reflexivity.
  - apply length_alter.
  - intros r Hr. by apply list_lookup_alter_ne.
Qed.

(** ** The task group *)

Lemma forallb_pointwise {A} (f g : A -> bool) (l : list A) :
  (forall x, f x = g x) -> forallb f l = forallb g l.
Proof. intros E. induction l as [|x l IH]; simpl; [done|]. by rewrite E, IH. Qed.

Lemma task_group_join_cons h ref tasks :
  task_group_join h (ref :: tasks) =
  match fetch (ITEM_URL (id (h !!! ref))) with
  | Ok html =>
      task_group_join
        (alter (set_comments (parse_comments (BeautifulSoup html))) ref h)
        tasks
  | Raise _ => Raise ExceptionGroup
  end.
Proof.
  simpl. unfold fetch_story_with_comments.
  by destruct (fetch (ITEM_URL (id (h !!! ref)))).
Qed.

Lemma task_group_join_ok h tasks h' :
  task_group_join h tasks = Ok h' ->
  length h' = length h
  /\ (forall r, r ∉ tasks -> h' !! r = h !! r)
  /\ (forall r d, r ∈ tasks -> h !! r = Some d ->
        exists d', h' !! r = Some d' /\ enriched d d').
Proof.
  revert h. induction tasks as [|ref tasks IH]; intros h H.
  - injection H as <-. split; [done|]. split; [done|].
    intros r d Hr. by apply elem_of_nil in Hr.
  - rewrite task_group_join_cons in H.
    destruct (fetch (ITEM_URL (id (h !!! ref)))) as [html|e] eqn:E; [|done].
    set (cs := parse_comments (BeautifulSoup html)) in *.
    destruct (IH _ H) as (L & Frame & Enr). split; [|split].
    + by rewrite L, length_alter.
    + intros r Hr. apply not_elem_of_cons in Hr as [Hne Hr].
      rewrite (Frame r Hr). by apply list_lookup_alter_ne.
    + intros r d Hr Hd.
      assert (h !!! r = d) as Ht by (by apply list_lookup_total_correct).
      destruct (decide (r = ref)) as [->|Hne].
      * assert (alter (set_comments cs) ref h !! ref
                = Some (set_comments cs d)) as H1
          by (by rewrite list_lookup_alter_eq, Hd).
        assert (enriched d (set_comments cs d)) as E1.
        { apply (set_comments_enriched cs d html); [by rewrite <- Ht|done]. }
        destruct (decide (ref ∈ tasks)) as [Hin|Hout].
        -- destruct (Enr ref _ Hin H1) as (d' & Hd' & E2).
           exists d'. split; [done|]. exact (enriched_again _ _ _ E1 E2).
        -- exists (set_comments cs d). split; [|done].
           by rewrite (Frame ref Hout).
      * apply elem_of_cons in Hr as [?|Hr]; [done|].
        apply (Enr r d Hr). by rewrite list_lookup_alter_ne.
Qed.

Lemma enriched_has_comments d d' : enriched d d' -> is_Some (comments d').
Proof. intros (_ & _ & _ & html & _ & C). by rewrite C. Qed.

Lemma task_group_join_raise h tasks e :
  task_group_join h tasks = Raise e -> e = ExceptionGroup.
Proof.
  revert h. induction tasks as [|ref tasks IH]; intros h H; [done|].
  rewrite task_group_join_cons in H.
  destruct (fetch (ITEM_URL (id (h !!! ref)))); [by eapply IH|congruence].
Qed.

Lemma id_alter_set_comments cs ref (h : list story) r :
  id (alter (set_comments cs) ref h !!! r) = id (h !!! r).
Proof.
  destruct (decide (ref = r)) as [->|Hne].
  - destruct (decide (r < length h)) as [Hlt|Hge].
    + by rewrite list_lookup_total_alter_eq.
    + rewrite !list_lookup_total_alt.
      rewrite list_lookup_alter_eq.
      by rewrite (lookup_ge_None_2 h r) by lia.
  - by rewrite list_lookup_total_alter_ne.
Qed.

(** The group returns exactly when every item request does. *)
Lemma task_group_join_is_ok h tasks :
  is_ok (task_group_join h tasks) =
  forallb (fun r => item_ok (h !!! r)) tasks.
Proof.
  revert h. induction tasks as [|ref tasks IH]; intros h; [done|].
  rewrite task_group_join_cons. cbn [forallb]. unfold item_ok at 1.
  destruct (fetch (ITEM_URL (id (h !!! ref)))) as [html|e]; [|done].
  rewrite IH. simpl. apply forallb_pointwise. intros r. unfold item_ok.
  by rewrite id_alter_set_comments.
Qed.

Lemma task_group_join_swap h a b tasks :
  task_group_join h (a :: b :: tasks) = task_group_join h (b :: a :: tasks).
Proof.
  rewrite (task_group_join_cons h a), (task_group_join_cons h b).
  destruct (fetch (ITEM_URL (id (h !!! a)))) as [ha|ea] eqn:Ea;
    destruct (fetch (ITEM_URL (id (h !!! b)))) as [hb|eb] eqn:Eb;
    rewrite ?task_group_join_cons, ?id_alter_set_comments, ?Ea, ?Eb;
    try done.
  destruct (decide (a = b)) as [->|Hne]; [congruence|].
  by rewrite list_alter_alter_ne.
Qed.

(** X6. The order in which the tasks of a group finish does not show: run in
    any order, they leave the same dictionaries, or the group raises. *)
Theorem task_group_join_any_order tasks tasks' :
  Permutation tasks tasks' ->
  forall h, task_group_join h tasks = task_group_join h tasks'.
Proof.
  induction 1 as [|ref l l' _ IH|a b l|l1 l2 l3 _ IH1 _ IH2]; intros h.
  - done.
  - rewrite !task_group_join_cons.
    destruct (fetch (ITEM_URL (id (h !!! ref)))); [apply IH|done].
  - apply task_group_join_swap.
  - by rewrite IH1.
Qed.

Lemma forallb_new_refs (f : story -> bool) (h dicts : list story) :
  forallb (fun r => f ((h ++ dicts) !!! r)) (seq (length h) (length dicts)) =
  forallb f dicts.
Proof.
  revert h. induction dicts as [|d dicts IH]; intros h; [done|].
  cbn [length seq forallb]. f_equal.
  - rewrite lookup_total_app_r by lia. by rewrite Nat.sub_diag.
  - specialize (IH (h ++ [d])). rewrite length_app in IH. simpl in IH.
    rewrite Nat.add_1_r in IH. rewrite <- IH.
    apply forallb_pointwise. intros r. by rewrite <- app_assoc.
Qed.

(** How the body of the task group ends on a page of each kind. *)
Lemma task_group_body_kind h page :
  match kind_of page with
  | NoStories => task_group_body h page = Ok (h, [])
  | Fails => task_group_body h page = Raise ExceptionGroup
  | Enriched =>
      exists h' dicts,
        listing page = Ok dicts /\ dicts <> []
        /\ task_group_join (h ++ dicts) (seq (length h) (length dicts)) = Ok h'
        /\ task_group_body h page = Ok (h', seq (length h) (length dicts))
  end.
Proof.
  unfold kind_of, listing, task_group_body.
  destruct (fetch page) as [html|e]; simpl; [|done].
  destruct (parse_stories (BeautifulSoup html)) as [dicts|e]; [|done].
  destruct dicts as [|d dicts]; [by rewrite app_nil_r|].
  pose proof (task_group_join_is_ok (h ++ d :: dicts)
                (seq (length h) (length (d :: dicts)))) as J.
  rewrite forallb_new_refs in J.
  unfold alloc. cbn [length seq] in *.
  destruct (task_group_join (h ++ d :: dicts)
              (length h :: seq (S (length h)) (length dicts)))
    as [h'|e] eqn:E; cbn [is_ok] in J; rewrite <- J; simpl.
  - exists h', (d :: dicts). by repeat split.
  - by rewrite (task_group_join_raise _ _ _ E).
Qed.

Lemma task_group_body_enriched h page h' stories :
  task_group_body h page = Ok (h', stories) ->
  length h <= length h'
  /\ (forall r, r < length h -> h' !! r = h !! r)
  /\ Forall (has_comments h') stories.
Proof.
  intros H. pose proof (task_group_body_kind h page) as K.
  destruct (kind_of page).
  - rewrite K in H. injection H as <- <-. by repeat split.
  - destruct K as (h2 & dicts & _ & _ & J & B).
    rewrite B in H. injection H as <- <-.
    destruct (task_group_join_ok _ _ _ J) as (L & Frame & Enr).
    rewrite length_app in L. split; [lia|]. split.
    + intros r Hr. rewrite Frame; [by apply lookup_app_l|].
      rewrite elem_of_seq. lia.
    + apply Forall_forall. intros r Hr.
      assert (is_Some ((h ++ dicts) !! r)) as [d Hd].
      { apply lookup_lt_is_Some. rewrite length_app.
        apply elem_of_seq in Hr. lia. }
      destruct (Enr r d Hr Hd) as (d' & Hd' & E).
      exists d'. split; [done|]. by eapply enriched_has_comments.
  - rewrite K in H. done.
Qed.

(** ** The worker loop *)

Lemma kind_of_no_stories page : kind_of page = NoStories <-> listing page = Ok [].
Proof.
  unfold kind_of. destruct (listing page) as [[|d dicts]|e]; [done| |done].
  destruct (forallb item_ok (d :: dicts)); done.
Qed.

(** A page fails when its listing does, or when the request for one of
    its stories does. *)
Lemma kind_of_fails page : kind_of page = Fails <-> raises page.
Proof.
  unfold raises, kind_of. destruct (listing page) as [dicts|e].
  - assert (forallb item_ok dicts = false <->
            exists d, In d dicts /\ exists e, fetch (ITEM_URL (id d)) = Raise e)
      as F.
    { rewrite <- not_true_iff_false, forallb_forall. split.
      - intros H. induction dicts as [|d dicts IH].
        + destruct H. intros ? [].
        + destruct (item_ok d) eqn:Ed.
          * destruct IH as (d' & Hin & He).
            { intros H'. apply H. intros x [<-|Hx]; [done|by apply H']. }
            exists d'. split; [by right|done].
          * exists d. split; [by left|]. unfold item_ok in Ed.
            destruct (fetch (ITEM_URL (id d))) as [|e]; [done|by exists e].
      - intros (d & Hin & e & He) H. specialize (H d Hin).
        unfold item_ok in H. by rewrite He in H. }
    destruct dicts as [|d dicts].
    + split; [done|]. intros [[e H]|(dicts & d & H & Hin & _)]; [done|].
      injection H as <-. destruct Hin.
    + destruct (forallb item_ok (d :: dicts)) eqn:E.
      * split; [done|]. intros [[e H]|(dicts' & d' & H & Hin & He)]; [done|].
        injection H as <-. assert (true = false) by (apply F; eauto). done.
      * split; [|done]. intros _. right. destruct F as [F _].
        destruct (F eq_refl) as (d' & Hin & He). by exists (d :: dicts), d'.
  - split; [|done]. intros _. left. by exists e.
Qed.

(** The loop runs through the entries on which it goes on, and ends at the
    first other entry: by returning when the queue is used up or the page has
    no stories, by raising when the page fails.  The entries behind that
    page stay in the queue. *)
Lemma worker_loop_first_stop q h all :
  match first_stop q with
  | None =>
      fst (worker_loop q h all) = Returned
      /\ queue (snd (worker_loop q h all)) = []
  | Some (page, rest) =>
      queue (snd (worker_loop q h all)) = rest
      /\ fst (worker_loop q h all) =
         match kind_of page with
         | Fails => Raised ExceptionGroup
         | _ => Returned
         end
  end.
Proof.
  revert h all. induction q as [|page q' IH]; intros h all; [done|].
  cbn [first_stop worker_loop].
  pose proof (task_group_body_kind h page) as K.
  destruct (kind_of page) eqn:Ek.
  - rewrite K. simpl. by rewrite Ek.
  - destruct K as (h' & dicts & _ & Hne & _ & ->).
    destruct dicts as [|d dicts]; [done|]. cbn [length seq]. apply IH.
  - rewrite K. simpl. by rewrite Ek.
Qed.

(** ** The pool *)

Lemma gets_app evs1 evs2 : gets (evs1 ++ evs2) = gets evs1 ++ gets evs2.
Proof. unfold gets. by rewrite flat_map_app. Qed.


(** A step takes entries from the front of the queue and puts none in. *)
Lemma pool_step_queue i p :
  queue p.2 = gets (pool_step i p).2 ++ queue (pool_step i p).1.2.
Proof.
  unfold pool_step. destruct (p.1 !! i) as [w|]; [|done].
  destruct w as [|page|stories| |e]; simpl; try done.
  - by destruct (queue p.2) eqn:E; simpl; rewrite ?E.
  - by destruct (task_group_body (heap p.2) page) as [[h' [|r rs]]|e].
Qed.


Lemma run_cons i sched p :
  run (i :: sched) p =
  ((run sched (pool_step i p).1).1,
   (pool_step i p).2 ++ (run sched (pool_step i p).1).2).
Proof.
  cbn [run]. destruct (pool_step i p) as [p1 ev]. cbn [fst snd].
  by destruct (run sched p1) as [p2 evs].
Qed.

Lemma run_app sched1 sched2 p :
  (run (sched1 ++ sched2) p).1 = (run sched2 (run sched1 p).1).1.
Proof.
  revert p. induction sched1 as [|i sched1 IH]; intros p; [done|].
  rewrite <- app_comm_cons, !run_cons. simpl. apply IH.
Qed.

Lemma run_queue sched p :
  queue p.2 = gets (run sched p).2 ++ queue (run sched p).1.2.
Proof.
  revert p. induction sched as [|i sched IH]; intros p; [done|].
  rewrite run_cons. simpl. rewrite gets_app, <- app_assoc, <- IH.
  apply pool_step_queue.
Qed.


(** A worker that has halted or failed stays where it is, whoever runs. *)
Lemma pool_step_finished i j p w :
  p.1 !! i = Some w -> finished w = true ->
  (pool_step j p).1.1 !! i = Some w.
Proof.
  intros Hw Hf. unfold pool_step.
  destruct (p.1 !! j) as [w'|] eqn:Hj; [|done].
  destruct (worker_step w' p.2) as [[w2 s2] ev] eqn:E. simpl.
  destruct (decide (j = i)) as [->|Hne].
  - assert (w' = w) as -> by congruence.
    assert (w2 = w) as ->.
    { destruct w; try done; simpl in E; congruence. }
    apply list_lookup_insert_eq. by eapply lookup_lt_Some.
  - by rewrite list_lookup_insert_ne.
Qed.

Lemma run_finished sched i p w :
  p.1 !! i = Some w -> finished w = true ->
  (run sched p).1.1 !! i = Some w.
Proof.
  revert p. induction sched as [|j sched IH]; intros p Hw Hf; [done|].
  rewrite run_cons. simpl. apply IH; [|done]. by apply pool_step_finished.
Qed.

(** The step that halts a worker: the claim on an empty queue, or a page
    without stories. *)
Lemma worker_step_halts w s :
  (worker_step w s).1.1 = Halted <->
  w = Halted
  \/ (w = LoopTop /\ queue s = [])
  \/ (exists page, w = Claimed page /\ listing page = Ok []).
Proof.
  destruct w as [|page|stories| |e]; simpl.
  - destruct (queue s) as [|page q']; simpl.
    + split; [intros _; right; by left|done].
    + split; [done|]. intros [?|[[_ ?]|(? & ? & _)]]; done.
  - pose proof (task_group_body_kind (heap s) page) as K.
    pose proof (kind_of_no_stories page) as N.
    destruct (kind_of page) eqn:Ek.
    + rewrite K. simpl. split; [|done]. intros _. right. right.
      exists page. split; [done|]. by apply N.
    + destruct K as (h' & dicts & _ & Hne & _ & ->).
      destruct dicts as [|d dicts]; [done|]. simpl.
      split; [done|]. intros [?|[[? _]|(page' & [= <-] & L)]]; try done.
      apply N in L. done.
    + rewrite K. simpl.
      split; [done|]. intros [?|[[? _]|(page' & [= <-] & L)]]; try done.
      apply N in L. done.
  - split; [done|]. intros [?|[[? _]|(? & ? & _)]]; done.
  - split; [intros _; by left|done].
  - split; [done|]. intros [?|[[? _]|(? & ? & _)]]; done.
Qed.

(** ** Stories in the result list *)

Lemma has_comments_frame h h' r :
  (forall r, r < length h -> h' !! r = h !! r) ->
  has_comments h r -> has_comments h' r.
Proof.
  intros Frame (d & Hd & C). exists d. split; [|done].
  rewrite Frame; [done|]. by eapply lookup_lt_Some.
Qed.

(** The worker at [j] was not the one that moved, or moved to a place
    other than the one asked about. *)
Ltac other_worker Other Hj := eapply Other; [|exact Hj]; done.

Lemma pool_step_collected_ok i p :
  collected_ok p -> collected_ok (pool_step i p).1.
Proof.
  destruct p as [ws s]. intros [Hall Hjoined]. unfold pool_step. simpl in *.
  destruct (ws !! i) as [w|] eqn:Hw; [|by split].
  assert (i < length ws) as Hi by (by eapply lookup_lt_Some).
  assert (forall w' j stories,
            (forall st, w' <> Joined st) ->
            <[i:=w']> ws !! j = Some (Joined stories) ->
            ws !! j = Some (Joined stories)) as Other.
  { intros w' j stories Hn Hj.
    apply list_lookup_insert_Some in Hj as [(-> & -> & _)|[_ Hj]]; [|done].
    by destruct (Hn stories). }
  destruct w as [|page|stories| |e]; simpl.
  - destruct (queue s) as [|page q']; simpl; (split; [done|]);
      intros j stories Hj; apply (Hjoined j); other_worker Other Hj.
  - pose proof (task_group_body_enriched (heap s) page) as B.
    destruct (task_group_body (heap s) page) as [[h' stories]|e]; simpl.
    + destruct (B h' stories eq_refl) as (_ & Frame & New).
      assert (forall l, Forall (has_comments (heap s)) l ->
                        Forall (has_comments h') l) as Keep.
      { intros l Hl. eapply Forall_impl; [exact Hl|]. intros r.
        by apply has_comments_frame. }
      destruct stories as [|r rs]; simpl; (split; [by apply Keep|]);
        intros j stories Hj.
      * apply Keep, (Hjoined j); other_worker Other Hj.
      * apply list_lookup_insert_Some in Hj as [(_ & [= <-] & _)|[_ Hj]];
          [done|]. by apply Keep, (Hjoined j).
    + split; [done|]. intros j stories Hj.
      apply (Hjoined j); other_worker Other Hj.
  - split.
    + apply Forall_app. split; [done|]. by apply (Hjoined i).
    + intros j st Hj. apply (Hjoined j); other_worker Other Hj.
  - split; [done|]. intros j st Hj.
    apply (Hjoined j); other_worker Other Hj.
  - split; [done|]. intros j st Hj.
    apply (Hjoined j); other_worker Other Hj.
Qed.

Lemma run_collected_ok sched p : collected_ok p -> collected_ok (run sched p).1.
Proof.
  revert p. induction sched as [|i sched IH]; intros p H; [done|].
  rewrite run_cons. simpl. by apply IH, pool_step_collected_ok.
Qed.

Lemma initial_collected_ok n q h :
  collected_ok (replicate n LoopTop, Shared q h []).
Proof.
  split; [constructor|]. intros i stories Hi.
  apply lookup_replicate in Hi as [? _]. done.
Qed.

(** ** One worker, as a pool of one *)

(** Run the scheduled steps of a worker whose page ends as [B] says. *)
Ltac run_steps B :=
  cbn [replicate run]; unfold pool_step; simpl; rewrite ?B; simpl.

Lemma worker_loop_as_run q h all :
  exists n,
    (run (replicate n 0) ([LoopTop], Shared q h all)).1 =
    ([pc_of (worker_loop q h all).1], (worker_loop q h all).2).
Proof.
  revert h all. induction q as [|page q' IH]; intros h all.
  - by exists 1.
  - cbn [worker_loop].
    destruct (task_group_body h page) as [[h' stories]|e] eqn:B.
    + destruct stories as [|r rs].
      * exists 2. by run_steps B.
      * destruct (IH h' (all ++ r :: rs)) as [n Hn].
        exists (3 + n).
        change (replicate (3 + n) 0) with ([0; 0; 0] ++ replicate n 0).
        rewrite run_app. rewrite <- Hn. f_equal. by run_steps B.
    + exists 2. by run_steps B.
Qed.

Lemma worker_collected_ok s :
  Forall (has_comments (heap s)) (all_stories s) ->
  Forall (has_comments (heap (worker s).2)) (all_stories (worker s).2).
Proof.
  intros H. destruct s as [q h all]. unfold worker. simpl in *.
  destruct (worker_loop_as_run q h all) as [n Hn].
  assert (collected_ok ([LoopTop], Shared q h all)) as I.
  { split; [done|]. by intros [|[|i]] st Hi. }
  apply (run_collected_ok (replicate n 0)) in I. rewrite Hn in I.
  apply I.
Qed.

(** X5. One worker run to its end is the pool of one worker, run long
    enough. *)
Theorem worker_as_pool_of_one (s : shared) :
  exists n,
    (run (replicate n 0) ([LoopTop], s)).1 =
    ([pc_of (worker s).1], (worker s).2).
Proof. destruct s as [q h all]. apply worker_loop_as_run. Qed.

(** ** Halting, failing, the queue and the result list *)

Lemma first_stop_not_enriched q page rest :
  first_stop q = Some (page, rest) -> kind_of page <> Enriched.
Proof.
  induction q as [|page' q' IH]; [done|]. simpl.
  destruct (kind_of page') eqn:K; [|exact IH|]; intros [= <- <-]; congruence.
Qed.

Lemma BASE_URL_inj : Inj (=) (=) BASE_URL.
Proof.
  intros a b H. unfold BASE_URL in H.
  apply (inj (String.app _)) in H. by apply (inj pretty) in H.
Qed.

Lemma setup_queue_NoDup : NoDup (queue setup).
Proof.
  change (NoDup (BASE_URL <$> seq 1 100)).
  apply (NoDup_fmap_2 (Inj0 := BASE_URL_inj) BASE_URL), NoDup_seq.
Qed.

(** C4. The worker returns exactly when the loop, having gone through
    the entries before, finds the queue empty at the claim or comes to a page
    without stories; in the first case the queue is left empty, in the second
    the entries behind that page stay in it.  Step by step: a worker comes
    to a halt exactly through one of these two steps, and a halted worker
    stays halted under every schedule of the pool, whatever is left in the
    queue and whoever else runs. *)
Theorem worker_halts_on_empty_queue_or_empty_page
    (s : shared) (w : pc) (ws : list pc) (i : nat) (sched : list nat) :
  ((worker s).1 = Returned <->
     first_stop (queue s) = None
     \/ exists page rest,
          first_stop (queue s) = Some (page, rest) /\ listing page = Ok [])
  /\ (first_stop (queue s) = None -> queue (worker s).2 = [])
  /\ (forall page rest,
        first_stop (queue s) = Some (page, rest) -> queue (worker s).2 = rest)
  /\ ((worker_step w s).1.1 = Halted <->
        w = Halted
        \/ (w = LoopTop /\ queue s = [])
        \/ (exists page, w = Claimed page /\ listing page = Ok []))
  /\ (ws !! i = Some Halted -> (run sched (ws, s)).1.1 !! i = Some Halted).
Proof.
  pose proof (worker_loop_first_stop (queue s) (heap s) (all_stories s)) as W.
  fold (worker s) in W.
  split; [|split; [|split; [|split]]].
  - destruct (first_stop (queue s)) as [[page rest]|] eqn:F.
    + destruct W as [_ W]. rewrite W.
      pose proof (first_stop_not_enriched _ _ _ F) as NE.
      pose proof (kind_of_no_stories page) as N.
      destruct (kind_of page) eqn:K.
      * split; [|done]. intros _. right. exists page, rest.
        split; [done|]. by apply N.
      * done.
      * split; [done|]. intros [?|(page' & rest' & [= <- <-] & L)]; [done|].
        apply N in L. done.
    + destruct W as [W _]. split; [by left|done].
  - intros F. rewrite F in W. by destruct W.
  - intros page rest F. rewrite F in W. by destruct W.
  - apply worker_step_halts.
  - intros H. by apply run_finished.
Qed.

(** C6. An exception goes all the way up.  The enrichment task raises
    what its request raises; the body of the task group raises on a page for
    which a request or the extraction raises; the worker raises exactly when
    the first page on which the loop does not go on is such a page, and then
    the entries behind it stay in the queue; a worker that failed does
    nothing more; and the single-worker run raises when its worker does.
    The worker never raises anything but the group, and the one exception it
    handles is the empty queue at the claim, on which it returns. *)
Theorem fetch_errors_propagate
    (s : shared) (ws : list pc) (i : nat) (sched : list nat) :
  (forall h ref e,
     fetch (ITEM_URL (id (h !!! ref))) = Raise e ->
     fetch_story_with_comments h ref = Raise e)
  /\ (forall h page, raises page -> task_group_body h page = Raise ExceptionGroup)
  /\ ((exists e, (worker s).1 = Raised e) <->
        exists page rest,
          first_stop (queue s) = Some (page, rest) /\ raises page)
  /\ (forall e, (worker s).1 = Raised e ->
        e = ExceptionGroup
        /\ exists page, first_stop (queue s) = Some (page, queue (worker s).2))
  /\ (forall e, ws !! i = Some (Failed e) ->
        (run sched (ws, s)).1.1 !! i = Some (Failed e))
  /\ (forall e, (worker setup).1 = Raised e -> main_single = Raise e)
  /\ (forall h all, worker (Shared [] h all) = (Returned, Shared [] h all)).
Proof.
  pose proof (worker_loop_first_stop (queue s) (heap s) (all_stories s)) as W.
  fold (worker s) in W.
  split; [|split; [|split; [|split; [|split; [|split]]]]].
  - apply fetch_story_with_comments_raise.
  - intros h page R. apply kind_of_fails in R.
    pose proof (task_group_body_kind h page) as K. by rewrite R in K.
  - destruct (first_stop (queue s)) as [[page rest]|] eqn:F.
    + destruct W as [_ W]. rewrite W.
      pose proof (first_stop_not_enriched _ _ _ F) as NE.
      pose proof (kind_of_fails page) as R.
      destruct (kind_of page) eqn:K.
      * split; [by intros [e ?]|].
        intros (page' & rest' & [= <- <-] & L). apply R in L. done.
      * done.
      * split; [|by eexists]. intros _. exists page, rest.
        split; [done|]. by apply R.
    + destruct W as [W _]. rewrite W.
      split; [by intros [e ?]|]. by intros (? & ? & ? & _).
  - intros e H. destruct (first_stop (queue s)) as [[page rest]|] eqn:F.
    + destruct W as [Q W]. rewrite W in H. rewrite Q.
      destruct (kind_of page); try done. injection H as <-.
      split; [done|]. by exists page.
    + destruct W as [W _]. congruence.
  - intros e H. by apply run_finished.
  - intros e H. unfold main_single.
    destruct (worker setup) as [o s']. simpl in H. by rewrite H.
  - reflexivity.
Qed.

(** C8. The queue is only drained.  Under every schedule of the pool the
    queue at the start is the entries the workers took, in the order they
    took them, followed by the queue at the end: nothing is put in, no entry
    is handed out twice, and none comes back.  So the queue never gets
    longer, the hundred pages of the set-up are each claimed at most once,
    and a single worker leaves a tail of the queue it was given. *)
Theorem queue_only_drained
    (sched : list nat) (p : pool) (multithreaded : bool) (s : shared) :
  queue p.2 = gets (run sched p).2 ++ queue (run sched p).1.2
  /\ length (queue (run sched p).1.2) <= length (queue p.2)
  /\ NoDup (gets (run sched (main_pool multithreaded)).2)
  /\ length (queue setup) = 100
  /\ exists claimed, queue s = claimed ++ queue (worker s).2.
Proof.
  pose proof (run_queue sched p) as Q.
  split; [done|]. split; [|split; [|split]].
  - rewrite Q, length_app. lia.
  - pose proof (run_queue sched (main_pool multithreaded)) as Qm.
    pose proof setup_queue_NoDup as ND.
    change (queue (main_pool multithreaded).2) with (queue setup) in Qm.
    rewrite Qm in ND. by apply NoDup_app in ND as [ND _].
  - reflexivity.
  - destruct s as [q h all]. unfold worker. simpl.
    destruct (worker_loop_as_run q h all) as [n Hn].
    pose proof (run_queue (replicate n 0) ([LoopTop], Shared q h all)) as Qw.
    rewrite Hn in Qw. simpl in Qw. eauto.
Qed.

(** C10. No story without comments gets into the result list.  Under
    every schedule of a pool started on an empty result list, every story in
    the list has its comments, and so has every story a worker holds at the
    [extend]; the same for the result list a single worker leaves. *)
Theorem collected_stories_have_comments
    (n : nat) (q : list string) (sched : list nat) :
  collected_ok (run sched (replicate n LoopTop, Shared q [] [])).1
  /\ Forall (has_comments (heap (worker (Shared q [] [])).2))
            (all_stories (worker (Shared q [] [])).2).
Proof.
  split.
  - apply run_collected_ok, initial_collected_ok.
  - by apply worker_collected_ok.
Qed.

(** ** What a task group leaves on the heap *)

Lemma Forall2_enriched_stems q page dicts new :
  In page q -> listing page = Ok dicts ->
  forall ds, (forall d, In d ds -> In d dicts) ->
  Forall2 enriched ds new -> Forall (stems_from q) new.
Proof.
  intros Hp L ds Hsub F.
  induction F as [|d d' ds new E F IH]; [constructor|].
  constructor.
  - exists page, dicts, d. split; [done|]. split; [done|].
    split; [apply Hsub; by left|done].
  - apply IH. intros x Hx. apply Hsub. by right.
Qed.

(** A group that returns leaves the old dictionaries alone and turns the
    new ones, one by one, into their enriched versions. *)
Lemma task_group_join_new h dicts h' :
  task_group_join (h ++ dicts) (seq (length h) (length dicts)) = Ok h' ->
  exists new, h' = h ++ new /\ Forall2 enriched dicts new.
Proof.
  intros J. destruct (task_group_join_ok _ _ _ J) as (L & Frame & Enr).
  rewrite length_app in L.
  exists (drop (length h) h'). split.
  - rewrite <- (take_drop (length h) h') at 1. f_equal.
    apply list_eq. intros i. destruct (decide (i < length h)) as [Hi|Hi].
    + rewrite lookup_take_lt by done. rewrite Frame.
      * by rewrite lookup_app_l.
      * rewrite elem_of_seq. lia.
    + rewrite lookup_take_ge by lia. symmetry. apply lookup_ge_None. lia.
  - apply Forall2_same_length_lookup. split.
    + rewrite length_drop. lia.
    + intros i d d' Hd Hd'. rewrite lookup_drop in Hd'.
      assert (i < length dicts) as Hi by (by eapply lookup_lt_Some).
      destruct (Enr (length h + i) d) as (d2 & Hd2 & E).
      * rewrite elem_of_seq. lia.
      * rewrite lookup_app_r by lia.
        by replace (length h + i - length h) with i by lia.
      * congruence.
Qed.

Lemma task_group_body_grows h page h' stories :
  task_group_body h page = Ok (h', stories) ->
  exists dicts new,
    listing page = Ok dicts /\ h' = h ++ new
    /\ stories = seq (length h) (length new)
    /\ Forall2 enriched dicts new.
Proof.
  intros B. pose proof (task_group_body_kind h page) as K.
  destruct (kind_of page) eqn:Ek.
  - rewrite K in B. injection B as <- <-.
    apply kind_of_no_stories in Ek. exists [], [].
    rewrite app_nil_r. by repeat split.
  - destruct K as (h2 & dicts & L & _ & J & B2).
    rewrite B2 in B. injection B as <- <-.
    destruct (task_group_join_new _ _ _ J) as (new & -> & F).
    exists dicts, new. repeat split; try done.
    by rewrite (Forall2_length _ _ _ F).
  - rewrite K in B. done.
Qed.

(** X10. The batch of one page, all or nothing: the group returns exactly when
    every item request does, and then every new dictionary is enriched;
    otherwise it raises the group. *)
Theorem task_group_all_or_nothing (h dicts : list story) :
  match task_group_join (h ++ dicts) (seq (length h) (length dicts)) with
  | Ok h' =>
      forallb item_ok dicts = true
      /\ exists new, h' = h ++ new /\ Forall2 enriched dicts new
  | Raise e => e = ExceptionGroup /\ forallb item_ok dicts = false
  end.
Proof.
  pose proof (task_group_join_is_ok (h ++ dicts)
                (seq (length h) (length dicts))) as Hok.
  rewrite forallb_new_refs in Hok.
  destruct (task_group_join (h ++ dicts) (seq (length h) (length dicts)))
    as [h'|e] eqn:J; simpl in Hok.
  - split; [done|]. by apply task_group_join_new.
  - split; [|done]. by eapply task_group_join_raise.
Qed.

(** X11. The enricher run again on the same story changes nothing more. *)
Theorem fetch_story_with_comments_again (h h1 : list story) (ref r1 : nat) :
  fetch_story_with_comments h ref = Ok (h1, r1) ->
  fetch_story_with_comments h1 ref = Ok (h1, ref).
Proof.
  unfold fetch_story_with_comments.
  destruct (fetch (ITEM_URL (id (h !!! ref)))) as [html|e] eqn:E; [|done].
  simpl. intros [= <- <-]. rewrite id_alter_set_comments, E. simpl.
  by rewrite list_alter_alter_eq.
Qed.

(** ** What one worker collects *)

Lemma worker_loop_collects q h all :
  exists new,
    heap (worker_loop q h all).2 = h ++ new
    /\ all_stories (worker_loop q h all).2
       = all ++ seq (length h) (length new)
    /\ Forall2 enriched (collected q) new.
Proof.
  revert h all. induction q as [|page q' IH]; intros h all.
  - exists []. simpl. rewrite !app_nil_r. by repeat split.
  - cbn [worker_loop collected].
    pose proof (task_group_body_kind h page) as K.
    destruct (kind_of page) eqn:Ek.
    + rewrite K. exists []. simpl. rewrite !app_nil_r. by repeat split.
    + destruct K as (h' & dicts & L & Hne & J & ->). rewrite L.
      destruct (task_group_join_new _ _ _ J) as (new1 & -> & F1).
      destruct (IH (h ++ new1) (all ++ seq (length h) (length dicts)))
        as (new2 & Hh & Ha & F2).
      destruct dicts as [|d dicts]; [done|]. cbn [length seq] in *.
      exists (new1 ++ new2). split; [|split].
      * by rewrite Hh, app_assoc.
      * rewrite Ha, <- app_assoc. f_equal.
        rewrite !length_app, seq_app. f_equal.
        change (length h :: seq (S (length h)) (length dicts))
          with (seq (length h) (length (d :: dicts))).
        by rewrite (Forall2_length _ _ _ F1).
      * by apply Forall2_app.
    + rewrite K. exists []. simpl. rewrite !app_nil_r. by repeat split.
Qed.

(** X12. A single worker appends, behind what the result list held, one
    reference for every story of the listing pages it goes through, page by
    page and in document order; the dictionaries they name are new, and are
    those stories enriched.  What was on the heap before is as it was. *)
Theorem worker_collects (s : shared) :
  exists new,
    heap (worker s).2 = heap s ++ new
    /\ all_stories (worker s).2
       = all_stories s ++ seq (length (heap s)) (length new)
    /\ Forall2 enriched (collected (queue s)) new.
Proof. apply worker_loop_collects. Qed.

(** X13. The count that the single-worker run hands to the report is the
    number of stories on the listing pages the worker went through. *)
Theorem main_single_count (n : nat) :
  main_single = Ok n -> n = length (collected (queue setup)).
Proof.
  unfold main_single, worker.
  destruct (worker_loop_collects (queue setup) (heap setup) (all_stories setup))
    as (new & _ & Ha & F).
  destruct (worker_loop (queue setup) (heap setup) (all_stories setup))
    as [[|e] s']; [|done].
  intros [= <-]. simpl in Ha. rewrite Ha, length_seq.
  symmetry. by eapply Forall2_length.
Qed.

(** ** The heap and the result list of a pool *)

Lemma pool_step_heap i p : heap p.2 `prefix_of` heap (pool_step i p).1.2.
Proof.
  destruct p as [ws s]. unfold pool_step. simpl.
  destruct (ws !! i) as [w|]; [|done].
  destruct w as [|page|stories| |e]; simpl; try done.
  - by destruct (queue s).
  - destruct (task_group_body (heap s) page) as [[h' stories]|e] eqn:B;
      [|done].
    destruct (task_group_body_grows _ _ _ _ B) as (dicts & new & _ & -> & _).
    destruct stories; simpl; by apply prefix_app_r.
Qed.

Lemma run_heap sched p : heap p.2 `prefix_of` heap (run sched p).1.2.
Proof.
  revert p. induction sched as [|i sched IH]; intros p; [done|].
  rewrite run_cons. simpl. etransitivity; [apply pool_step_heap|apply IH].
Qed.

(** X14. No dictionary is changed or dropped once its page has been joined:
    under every schedule, the heap of a pool only grows at its end. *)
Theorem dictionaries_stay (sched : list nat) (p : pool) :
  exists new, heap (run sched p).1.2 = heap p.2 ++ new.
Proof. destruct (run_heap sched p) as [new E]. by exists new. Qed.

Lemma held_insert ws i w w' :
  ws !! i = Some w ->
  exists rest,
    held ws ≡ₚ held_of w ++ rest
    /\ held (<[i:=w']> ws) ≡ₚ held_of w' ++ rest.
Proof.
  intros Hw. exists (held (take i ws) ++ held (drop (S i) ws)).
  assert (i < length ws) as Hi by (by eapply lookup_lt_Some).
  split.
  - rewrite <- (take_drop_middle ws i w Hw) at 1. unfold held.
    rewrite flat_map_app. simpl.
    by rewrite Permutation_app_swap_app.
  - rewrite insert_take_drop by done. unfold held.
    rewrite flat_map_app. simpl.
    by rewrite Permutation_app_swap_app.
Qed.

Lemma pool_step_each_once i p : each_once p -> each_once (pool_step i p).1.
Proof.
  destruct p as [ws s]. unfold each_once, pool_step. simpl. intros I.
  destruct (ws !! i) as [w|] eqn:Hw; [|done].
  destruct w as [|page|stories| |e]; simpl.
  - destruct (held_insert ws i LoopTop Halted Hw) as (r1 & H1 & H2).
    destruct (queue s) as [|page q']; simpl.
    + by rewrite H2, <- H1.
    + destruct (held_insert ws i LoopTop (Claimed page) Hw)
        as (r2 & H3 & H4). by rewrite H4, <- H3.
  - destruct (task_group_body (heap s) page) as [[h' stories]|e] eqn:B.
    + destruct (task_group_body_grows _ _ _ _ B)
        as (dicts & new & _ & -> & -> & _).
      destruct (held_insert ws i (Claimed page)
                  (Joined (seq (length (heap s)) (length new))) Hw)
        as (rest & H1 & H2). simpl in H1, H2.
      assert (all_stories s
                ++ held (<[i:=Joined (seq (length (heap s)) (length new))]> ws)
              ≡ₚ seq 0 (length (heap s ++ new))) as Goal.
      { rewrite H2, length_app, seq_app. simpl.
        rewrite <- I, H1.
        rewrite (Permutation_app_comm (seq _ _) rest).
        by rewrite app_assoc. }
      destruct new as [|d new]; simpl in *.
      * destruct (held_insert ws i (Claimed page) Halted Hw)
          as (r2 & H3 & H4). simpl in H3, H4.
        rewrite app_nil_r. by rewrite H4, <- H3.
      * exact Goal.
    + simpl. destruct (held_insert ws i (Claimed page) (Failed e) Hw)
        as (rest & H1 & H2). by rewrite H2, <- H1.
  - destruct (held_insert ws i (Joined stories) LoopTop Hw)
      as (rest & H1 & H2). simpl in H1, H2.
    rewrite H2, <- app_assoc. by rewrite <- I, H1.
  - by rewrite list_insert_id.
  - by rewrite list_insert_id.
Qed.

Lemma run_each_once sched p : each_once p -> each_once (run sched p).1.
Proof.
  revert p. induction sched as [|i sched IH]; intros p H; [done|].
  rewrite run_cons. simpl. by apply IH, pool_step_each_once.
Qed.

Lemma held_replicate_LoopTop n : held (replicate n LoopTop) = [].
Proof. induction n as [|n IH]; [done|]. exact IH. Qed.

Lemma held_finished ws : forallb finished ws = true -> held ws = [].
Proof.
  induction ws as [|w ws IH]; [done|]. simpl.
  intros [Hw Hws]%andb_prop. unfold held in *. simpl. rewrite (IH Hws).
  by destruct w.
Qed.

Lemma initial_each_once n q : each_once (replicate n LoopTop, Shared q [] []).
Proof. unfold each_once. simpl. by rewrite held_replicate_LoopTop. Qed.

(** X15. Every story dictionary is collected once.  In a pool started on an
    empty heap and an empty result list, the references in the result list
    and in the hands of the workers are, under every schedule, those of the
    dictionaries made so far, each once: the result list never holds a
    story twice, and once every worker has finished it holds them all. *)
Theorem stories_collected_once (n : nat) (q : list string) (sched : list nat) :
  let p := (run sched (replicate n LoopTop, Shared q [] [])).1 in
  all_stories p.2 ++ held p.1 ≡ₚ seq 0 (length (heap p.2))
  /\ NoDup (all_stories p.2)
  /\ (forallb finished p.1 = true ->
      all_stories p.2 ≡ₚ seq 0 (length (heap p.2))).
Proof.
  intros p.
  assert (each_once p) as I.
  { apply run_each_once, initial_each_once. }
  split; [exact I|]. unfold each_once in I. split.
  - pose proof (NoDup_seq 0 (length (heap p.2))) as ND.
    rewrite <- I in ND. by apply NoDup_app in ND as [ND _].
  - intros F. by rewrite (held_finished _ F), app_nil_r in I.
Qed.

Lemma pool_step_pages_known q i p :
  pages_known q p -> pages_known q (pool_step i p).1.
Proof.
  destruct p as [ws s]. unfold pages_known, pool_step. simpl.
  intros (Hq & Hc & Hh).
  destruct (ws !! i) as [w|] eqn:Hw; [|done].
  assert (forall w' j page,
            (forall pg, w' <> Claimed pg) ->
            <[i:=w']> ws !! j = Some (Claimed page) -> In page q) as Other.
  { intros w' j page Hn Hj.
    apply list_lookup_insert_Some in Hj as [(-> & -> & _)|[_ Hj]].
    - by destruct (Hn page).
    - by apply (Hc j). }
  destruct w as [|page|stories| |e]; simpl.
  - destruct (queue s) as [|page q'] eqn:Eq; simpl.
    + split; [by rewrite Eq|]. split; [|done].
      intros j pg Hj. other_worker Other Hj.
    + split; [intros pg Hpg; apply Hq; by right|]. split; [|done].
      intros j pg Hj.
      apply list_lookup_insert_Some in Hj as [(_ & [= <-] & _)|[_ Hj]].
      * apply Hq. by left.
      * by apply (Hc j).
  - assert (In page q) as Hp by (by apply (Hc i)).
    destruct (task_group_body (heap s) page) as [[h' stories]|e] eqn:B.
    + destruct (task_group_body_grows _ _ _ _ B)
        as (dicts & new & L & -> & _ & F).
      assert (Forall (stems_from q) (heap s ++ new)) as Hh'.
      { apply Forall_app. split; [done|].
        by apply (Forall2_enriched_stems q page dicts new Hp L dicts). }
      destruct stories; simpl; (split; [done|]); (split; [|done]);
        intros j pg Hj; other_worker Other Hj.
    + simpl. split; [done|]. split; [|done].
      intros j pg Hj. other_worker Other Hj.
  - split; [done|]. split; [|done]. intros j pg Hj. other_worker Other Hj.
  - split; [done|]. split; [|done]. intros j pg Hj. other_worker Other Hj.
  - split; [done|]. split; [|done]. intros j pg Hj. other_worker Other Hj.
Qed.

Lemma run_pages_known q sched p :
  pages_known q p -> pages_known q (run sched p).1.
Proof.
  revert p. induction sched as [|i sched IH]; intros p H; [done|].
  rewrite run_cons. simpl. by apply IH, pool_step_pages_known.
Qed.

(** X16. Where the collected stories come from.  In a pool started on the
    queue [q], under every schedule, every reference in the result list
    names a dictionary that is a story of the listing of one of the pages of
    [q], with the identifier, title and link the extractor gave it and the
    comments of its own item page. *)
Theorem collected_stories_stem_from_pages
    (n : nat) (q : list string) (sched : list nat) :
  let p := (run sched (replicate n LoopTop, Shared q [] [])).1 in
  Forall (fun r => exists d', heap p.2 !! r = Some d' /\ stems_from q d')
         (all_stories p.2).
Proof.
  intros p.
  assert (each_once p) as I.
  { apply run_each_once, initial_each_once. }
  assert (pages_known q p) as (_ & _ & K).
  { apply run_pages_known. split; [done|]. split; [|constructor].
    intros i page Hi. apply lookup_replicate in Hi as [? _]. done. }
  unfold each_once in I. apply Forall_forall. intros r Hr.
  assert (r ∈ seq 0 (length (heap p.2))) as Hs.
  { rewrite <- I. apply elem_of_app. by left. }
  apply elem_of_seq in Hs as [_ Hs].
  destruct (lookup_lt_is_Some_2 (heap p.2) r) as [d' Hd']; [lia|].
  exists d'. split; [done|].
  by apply (proj1 (Forall_lookup _ _) K r d').
Qed.

(** ** Every fair schedule finishes *)

Lemma weights_insert ws i w w' :
  ws !! i = Some w ->
  exists rest,
    sum_list_with pc_weight ws = pc_weight w + rest
    /\ sum_list_with pc_weight (<[i:=w']> ws) = pc_weight w' + rest.
Proof.
  intros Hw.
  exists (sum_list_with pc_weight (take i ws)
          + sum_list_with pc_weight (drop (S i) ws)).
  assert (i < length ws) as Hi by (by eapply lookup_lt_Some).
  split.
  - rewrite <- (take_drop_middle ws i w Hw) at 1.
    rewrite sum_list_with_app. simpl. lia.
  - rewrite insert_take_drop by done.
    rewrite sum_list_with_app. simpl. lia.
Qed.

(** A step of a worker that has not finished uses up fuel. *)
Lemma pool_step_fuel i p w :
  p.1 !! i = Some w -> finished w = false ->
  fuel (pool_step i p).1 < fuel p.
Proof.
  destruct p as [ws s]. unfold fuel, pool_step. simpl. intros Hw Hf.
  rewrite Hw. destruct w as [|page|stories| |e]; try done; simpl.
  - destruct (queue s) as [|page q'] eqn:Eq; simpl; rewrite ?Eq.
    + destruct (weights_insert ws i LoopTop Halted Hw) as (r & -> & ->).
      simpl. lia.
    + destruct (weights_insert ws i LoopTop (Claimed page) Hw)
        as (r & -> & ->). simpl. lia.
  - destruct (task_group_body (heap s) page) as [[h' [|r0 rs]]|e]; simpl.
    + destruct (weights_insert ws i (Claimed page) Halted Hw)
        as (r & -> & ->). simpl. lia.
    + destruct (weights_insert ws i (Claimed page) (Joined (r0 :: rs)) Hw)
        as (r & -> & ->). simpl. lia.
    + destruct (weights_insert ws i (Claimed page) (Failed e) Hw)
        as (r & -> & ->). simpl. lia.
  - destruct (weights_insert ws i (Joined stories) LoopTop Hw)
      as (r & -> & ->). simpl. lia.
Qed.

Lemma pool_step_same_or_less i p :
  (pool_step i p).1 = p \/ fuel (pool_step i p).1 < fuel p.
Proof.
  destruct (p.1 !! i) as [w|] eqn:Hw.
  - destruct (finished w) eqn:Hf.
    + left. destruct p as [ws s]. unfold pool_step. simpl in *. rewrite Hw.
      destruct w; try done; simpl; by rewrite list_insert_id.
    + right. by eapply pool_step_fuel.
  - left. unfold pool_step. by rewrite Hw.
Qed.

Lemma run_same_or_less sched p :
  (run sched p).1 = p \/ fuel (run sched p).1 < fuel p.
Proof.
  revert p. induction sched as [|i sched IH]; intros p; [by left|].
  rewrite run_cons. simpl.
  destruct (pool_step_same_or_less i p) as [E|L].
  - rewrite E. apply IH.
  - right. destruct (IH (pool_step i p).1) as [E|L2]; [by rewrite E|lia].
Qed.

Lemma run_fuel sched p : fuel (run sched p).1 <= fuel p.
Proof. destruct (run_same_or_less sched p) as [->|L]; lia. Qed.

Lemma run_all_finished sched p :
  Forall (fun w => finished w = true) p.1 ->
  Forall (fun w => finished w = true) (run sched p).1.1.
Proof.
  revert p. induction sched as [|i sched IH]; intros p H; [done|].
  rewrite run_cons. simpl. apply IH.
  destruct (p.1 !! i) as [w|] eqn:Hw.
  - assert (finished w = true) as Hf
      by (by apply (proj1 (Forall_lookup _ _) H i w)).
    destruct p as [ws s]. unfold pool_step. simpl in *. rewrite Hw.
    destruct w; try done; simpl; by rewrite list_insert_id.
  - unfold pool_step. by rewrite Hw.
Qed.

Lemma run_workers_length sched p : length (run sched p).1.1 = length p.1.
Proof.
  revert p. induction sched as [|i sched IH]; intros p; [done|].
  rewrite run_cons. simpl. rewrite IH.
  destruct p as [ws s]. unfold pool_step. simpl.
  destruct (ws !! i) as [w|]; [|done].
  destruct (worker_step w s) as [[w' s'] ev]. simpl. apply length_insert.
Qed.

Lemma fuel_zero_finished p :
  fuel p = 0 -> Forall (fun w => finished w = true) p.1.
Proof.
  destruct p as [ws s]. unfold fuel. simpl. intros H.
  assert (sum_list_with pc_weight ws = 0) as H0 by lia. clear H.
  induction ws as [|w ws IH]; [constructor|]. simpl in H0.
  constructor; [by destruct w|]. apply IH. lia.
Qed.

(** A stretch in which everyone gets a turn uses up fuel, unless everyone
    has finished. *)
Lemma block_progress block p :
  covers (length p.1) block ->
  Forall (fun w => finished w = true) p.1
  \/ fuel (run block p).1 < fuel p.
Proof.
  intros C.
  destruct (decide (Forall (fun w => finished w = true) p.1)) as [F|NF];
    [by left|right].
  apply not_Forall_Exists in NF; [|intros w; apply _].
  apply Exists_exists in NF as (w & Hin & Hf).
  apply list_elem_of_lookup in Hin as [i Hi].
  apply not_true_is_false in Hf.
  assert (In i block) as Hb.
  { apply C. by eapply lookup_lt_Some. }
  apply in_split in Hb as (b1 & b2 & ->).
  rewrite run_app, run_cons. simpl.
  pose proof (run_fuel b2 (pool_step i (run b1 p).1).1) as L2.
  destruct (run_same_or_less b1 p) as [E|L1].
  - rewrite E in *. pose proof (pool_step_fuel i p w Hi Hf). lia.
  - destruct (pool_step_same_or_less i (run b1 p).1) as [E|L]; [|lia].
    rewrite E in L2. rewrite E. lia.
Qed.

Lemma fair_schedule_finishes blocks :
  forall p,
    Forall (covers (length p.1)) blocks ->
    fuel p <= length blocks ->
    Forall (fun w => finished w = true) (run (concat blocks) p).1.1.
Proof.
  induction blocks as [|block blocks IH]; intros p C L.
  - simpl in *. apply fuel_zero_finished. lia.
  - apply Forall_cons in C as [C Cs]. simpl in L.
    cbn [concat]. rewrite run_app.
    destruct (block_progress block p C) as [F|Less].
    + by apply run_all_finished, run_all_finished.
    + apply IH; [|lia]. by rewrite run_workers_length.
Qed.

(** X17. The pool comes to an end.  When the schedule gives every worker a
    turn in each of as many stretches as the pool has fuel (three steps for
    every queue entry, up to three for every worker), every worker has
    halted or failed at the end of it. *)
Theorem pool_finishes (blocks : list (list nat)) (p : pool) :
  Forall (covers (length p.1)) blocks ->
  fuel p <= length blocks ->
  forallb finished (run (concat blocks) p).1.1 = true.
Proof.
  intros C L. apply forallb_forall. intros w Hw.
  pose proof (fair_schedule_finishes blocks p C L) as F.
  apply (proj1 (Forall_forall _ _) F). by apply list_elem_of_In.
Qed.

(** X18. The pooled run comes to its report.  Under every schedule that gives
    each of the eight workers a turn in each of 308 stretches (three steps
    for each of the hundred pages, one more for every worker), all threads
    are over, and the count handed to the report is the number of story
    dictionaries made, whatever the workers raised. *)
Theorem main_pooled_reports (blocks : list (list nat)) :
  Forall (covers 8) blocks ->
  308 <= length blocks ->
  main_pooled (concat blocks) =
  Some (length (heap (run (concat blocks) (main_pool true)).1.2)).
Proof.
  intros C L. unfold main_pooled.
  pose proof (fair_schedule_finishes blocks (main_pool true) C L) as F.
  assert (forallb finished (run (concat blocks) (main_pool true)).1.1 = true)
    as Fb.
  { apply forallb_forall. intros w Hw.
    apply (proj1 (Forall_forall _ _) F). by apply list_elem_of_In. }
  rewrite Fb. f_equal.
  assert (each_once (run (concat blocks) (main_pool true)).1) as I.
  { apply run_each_once. apply (initial_each_once 8). }
  unfold each_once in I. rewrite (held_finished _ Fb), app_nil_r in I.
  by rewrite I, length_seq.
Qed.

(** ** Every page is accounted for *)

Lemma flat_map_insert {B} (f : pc -> list B) ws i w w' :
  ws !! i = Some w ->
  exists rest,
    flat_map f ws ≡ₚ f w ++ rest
    /\ flat_map f (<[i:=w']> ws) ≡ₚ f w' ++ rest.
Proof.
  intros Hw. exists (flat_map f (take i ws) ++ flat_map f (drop (S i) ws)).
  assert (i < length ws) as Hi by (by eapply lookup_lt_Some).
  split.
  - rewrite <- (take_drop_middle ws i w Hw) at 1.
    rewrite flat_map_app. simpl. by rewrite Permutation_app_swap_app.
  - rewrite insert_take_drop by done.
    rewrite flat_map_app. simpl. by rewrite Permutation_app_swap_app.
Qed.

Lemma task_group_body_yield h page :
  match task_group_body h page with
  | Ok (h', _) => exists new, h' = h ++ new /\ Forall2 enriched (yield page) new
  | Raise _ => yield page = []
  end.
Proof.
  pose proof (task_group_body_kind h page) as K. unfold yield.
  destruct (kind_of page) eqn:Ek.
  - rewrite K. exists []. rewrite app_nil_r. split; [done|].
    destruct (listing page); constructor.
  - destruct K as (h' & dicts & -> & _ & J & ->).
    by apply task_group_join_new.
  - by rewrite K.
Qed.

Lemma pool_step_accounted q0 i p :
  accounted q0 p -> accounted q0 (pool_step i p).1.
Proof.
  destruct p as [ws s]. unfold accounted, pool_step. simpl.
  intros (done & P & F).
  destruct (ws !! i) as [w|] eqn:Hw; [|by exists done].
  destruct w as [|page|stories| |e]; simpl.
  - destruct (queue s) as [|page q'] eqn:Eq; simpl.
    + destruct (flat_map_insert claimed_of ws i LoopTop Halted Hw)
        as (rest & H1 & H2). fold (claimed ws) in H1.
      fold (claimed (<[i:=Halted]> ws)) in H2.
      exists done. rewrite Eq. split; [|done]. by rewrite H2, <- H1.
    + destruct (flat_map_insert claimed_of ws i LoopTop (Claimed page) Hw)
        as (rest & H1 & H2). fold (claimed ws) in H1.
      fold (claimed (<[i:=Claimed page]> ws)) in H2.
      exists done. split; [|done]. rewrite H2. rewrite H1 in P.
      simpl in *. rewrite <- P. apply Permutation_app_head.
      by rewrite Permutation_middle.
  - pose proof (task_group_body_yield (heap s) page) as Y.
    assert (forall w', (forall pg, w' <> Claimed pg) ->
              (done ++ [page]) ++ claimed (<[i:=w']> ws) ++ queue s ≡ₚ q0)
      as Moves.
    { intros w' Hn.
      destruct (flat_map_insert claimed_of ws i (Claimed page) w' Hw)
        as (rest & H1 & H2). fold (claimed ws) in H1.
      fold (claimed (<[i:=w']> ws)) in H2.
      assert (claimed_of w' = []) as E0.
      { destruct w'; try done. by destruct (Hn page0). }
      rewrite H2, E0. rewrite H1 in P. simpl in *.
      by rewrite <- P, <- app_assoc. }
    destruct (task_group_body (heap s) page) as [[h' stories]|e].
    + destruct Y as (new & -> & Fn).
      assert (Forall2 enriched (flat_map yield (done ++ [page]))
                (heap s ++ new)) as F'.
      { rewrite flat_map_app. simpl. rewrite app_nil_r.
        by apply Forall2_app. }
      destruct stories as [|r rs]; simpl;
        exists (done ++ [page]); (split; [by apply Moves|done]).
    + simpl. exists (done ++ [page]). split; [by apply Moves|].
      rewrite flat_map_app. simpl. by rewrite Y, !app_nil_r.
  - destruct (flat_map_insert claimed_of ws i (Joined stories) LoopTop Hw)
      as (rest & H1 & H2). fold (claimed ws) in H1.
    fold (claimed (<[i:=LoopTop]> ws)) in H2.
    exists done. split; [|done]. by rewrite H2, <- H1.
  - exists done. by rewrite list_insert_id.
  - exists done. by rewrite list_insert_id.
Qed.

Lemma run_accounted q0 sched p :
  accounted q0 p -> accounted q0 (run sched p).1.
Proof.
  revert p. induction sched as [|i sched IH]; intros p H; [done|].
  rewrite run_cons. simpl. by apply IH, pool_step_accounted.
Qed.

Lemma claimed_replicate_LoopTop n : claimed (replicate n LoopTop) = [].
Proof. induction n as [|n IH]; [done|]. exact IH. Qed.

(** X21. Nothing is lost and nothing is made up.  In a pool started on an
    empty heap, under every schedule, the pages taken from the queue are the
    pages the workers are at and the pages that are done, and the heap holds,
    in the order the pages were done, the stories of the done pages
    enriched: all the stories of a page whose item requests all went well,
    none of a page without stories or with a failure. *)
Theorem pool_accounts_for_pages (n : nat) (q : list string) (sched : list nat) :
  let r := run sched (replicate n LoopTop, Shared q [] []) in
  exists done,
    done ++ claimed r.1.1 ≡ₚ gets r.2
    /\ Forall2 enriched (flat_map yield done) (heap r.1.2).
Proof.
  intros r.
  assert (accounted q r.1) as (done & P & F).
  { apply run_accounted. exists []. simpl.
    rewrite claimed_replicate_LoopTop. by split; [|constructor]. }
  exists done. split; [|done].
  pose proof (run_queue sched (replicate n LoopTop, Shared q [] [])) as Q.
  simpl in Q. fold r in Q. rewrite Q in P.
  rewrite app_assoc in P. by apply Permutation_app_inv_r in P.
Qed.

End Pipeline.

(** ** The extractors *)

Lemma parse_comments_loop_acc rows acc :
  parse_comments_loop rows acc = acc ++ parse_comments_loop rows [].
Proof.
  revert acc. induction rows as [|row rows IH]; intros acc; simpl.
  - by rewrite app_nil_r.
  - destruct (Soup.select_one Soup.hnuser row) as [u|];
      destruct (Soup.select_one Soup.commtext row) as [c|]; try apply IH.
    rewrite IH. rewrite (IH [_]). by rewrite app_assoc.
Qed.

Lemma parse_comments_loop_cons row rows :
  parse_comments_loop (row :: rows) [] =
  match comment_of_row row with
  | Some c => c :: parse_comments_loop rows []
  | None => parse_comments_loop rows []
  end.
Proof.
  unfold comment_of_row. simpl.
  destruct (Soup.select_one Soup.hnuser row) as [u|];
    destruct (Soup.select_one Soup.commtext row) as [c|]; try reflexivity.
  by rewrite parse_comments_loop_acc.
Qed.

Lemma well_formed_comment_row_record row :
  well_formed_comment_row row = true <-> is_Some (comment_of_row row).
Proof.
  unfold well_formed_comment_row, comment_of_row.
  destruct (Soup.select_one Soup.hnuser row) as [u|];
    destruct (Soup.select_one Soup.commtext row) as [c|]; simpl;
    split; intros H; try done; try (by eexists); by destruct H.
Qed.

Lemma parse_comments_loop_filter rows :
  parse_comments_loop (List.filter well_formed_comment_row rows) [] =
  parse_comments_loop rows [].
Proof.
  induction rows as [|row rows IH]; [done|].
  rewrite (parse_comments_loop_cons row rows). simpl.
  destruct (well_formed_comment_row row) eqn:W.
  - rewrite parse_comments_loop_cons, IH. done.
  - rewrite IH. destruct (comment_of_row row) eqn:E; [|done].
    assert (is_Some (comment_of_row row)) as HS by (by rewrite E).
    apply well_formed_comment_row_record in HS. congruence.
Qed.

Lemma parse_comments_loop_records rows :
  Forall2 (fun row c => comment_of_row row = Some c)
          (List.filter well_formed_comment_row rows)
          (parse_comments_loop rows []).
Proof.
  induction rows as [|row rows IH]; [constructor|].
  rewrite parse_comments_loop_cons. simpl.
  destruct (well_formed_comment_row row) eqn:W.
  - apply well_formed_comment_row_record in W as [c E]. rewrite E.
    by constructor.
  - destruct (comment_of_row row) eqn:E; [|done].
    assert (is_Some (comment_of_row row)) as HS by (by rewrite E).
    apply well_formed_comment_row_record in HS. congruence.
Qed.

(** C2. The comment extractor returns one record per well-formed comment
    row, in document order: the records are those of the well-formed rows,
    row by row, so there are as many of them; and the rows that lack a
    username or a body can be taken out of the row list without changing
    the result. *)
Theorem parse_comments_well_formed_rows (soup : Soup.PageElement) :
  let rows := Soup.select Soup.tr_comtr soup in
  let good := List.filter well_formed_comment_row rows in
  length (parse_comments soup) = length good
  /\ Forall2 (fun row c => comment_of_row row = Some c) good
             (parse_comments soup)
  /\ parse_comments_loop good [] = parse_comments soup.
Proof.
  intros rows good. unfold parse_comments. fold rows.
  pose proof (parse_comments_loop_records rows) as HR. fold good in HR.
  split; [|split].
  - symmetry. eapply Forall2_length, HR.
  - exact HR.
  - apply parse_comments_loop_filter.
Qed.

Lemma parse_stories_loop_acc items acc :
  parse_stories_loop items acc =
  (new ← parse_stories_loop items []; Ok (acc ++ new)).
Proof.
  revert acc. induction items as [|item items IH]; intros acc; simpl.
  - by rewrite app_nil_r.
  - destruct (Soup.select_one Soup.titleline_a item) as [a|]; [|apply IH].
    destruct (Soup.get "id" item) as [sid|]; [|apply IH].
    destruct (Str.is_empty sid); [apply IH|].
    destruct (getitem "href" a) as [href|e]; [|done]. simpl.
    rewrite IH. rewrite (IH [_]).
    destruct (parse_stories_loop items []) as [new|e]; [|done].
    simpl. by rewrite <- app_assoc.
Qed.

Lemma parse_stories_loop_cons item items :
  parse_stories_loop (item :: items) [] =
  if well_formed_row item then
    match story_of_row item with
    | Some s => rest ← parse_stories_loop items []; Ok (s :: rest)
    | None => Raise (KeyError "href")
    end
  else parse_stories_loop items [].
Proof.
  unfold well_formed_row, has_row_id, story_of_row, title_anchor. simpl.
  destruct (Soup.select_one Soup.titleline_a item) as [a|]; [|done].
  destruct (Soup.get "id" item) as [sid|]; [|done].
  destruct (Str.is_empty sid); [done|]. simpl.
  unfold getitem. destruct (Soup.get "href" a) as [href|]; [|done]. simpl.
  by rewrite parse_stories_loop_acc.
Qed.

Lemma story_of_row_href item :
  well_formed_row item = true ->
  (is_Some (story_of_row item) <-> anchor_has_href item = true).
Proof.
  unfold well_formed_row, has_row_id, story_of_row, anchor_has_href,
    title_anchor.
  destruct (Soup.select_one Soup.titleline_a item) as [a|]; [|done].
  destruct (Soup.get "id" item) as [sid|]; [|done].
  destruct (Soup.get "href" a) as [href|]; intros _; split; intros H;
    try done; try (by eexists); by destruct H.
Qed.

Lemma parse_stories_loop_ok items :
  existsb row_raises items = false ->
  exists stories,
    parse_stories_loop items [] = Ok stories
    /\ Forall2 (fun item s => story_of_row item = Some s)
               (List.filter well_formed_row items) stories.
Proof.
  induction items as [|item items IH]; intros H.
  - exists []. split; [done|constructor].
  - simpl in H. apply orb_false_elim in H as [Hi Hr].
    destruct (IH Hr) as (stories & E & F).
    rewrite parse_stories_loop_cons. unfold row_raises in Hi.
    cbn [List.filter].
    destruct (well_formed_row item) eqn:W; simpl in *.
    + apply negb_false_iff in Hi.
      apply (story_of_row_href _ W) in Hi as [s Es]. rewrite Es, E. simpl.
      exists (s :: stories). split; [done|by constructor].
    + exists stories. by split.
Qed.

Lemma parse_stories_loop_raises items :
  existsb row_raises items = true ->
  parse_stories_loop items [] = Raise (KeyError "href").
Proof.
  induction items as [|item items IH]; intros H; [done|].
  rewrite parse_stories_loop_cons. simpl in H. unfold row_raises in H.
  destruct (well_formed_row item) eqn:W; simpl in *.
  - destruct (anchor_has_href item) eqn:A; simpl in *.
    + apply (story_of_row_href _ W) in A as [s Es]. rewrite Es.
      by rewrite (IH H).
    + destruct (story_of_row item) eqn:Es; [|done].
      assert (is_Some (story_of_row item)) as HS by (by rewrite Es).
      apply (story_of_row_href _ W) in HS. congruence.
  - by apply IH.
Qed.

(** X1. When the anchor of every well-formed row has an [href], the story
    extractor returns the records of the well-formed rows, row by row. *)
Theorem parse_stories_well_formed_rows (soup : Soup.PageElement) :
  let rows := Soup.select Soup.athing soup in
  let good := List.filter well_formed_row rows in
  existsb row_raises rows = false ->
  exists stories,
    parse_stories soup = Ok stories
    /\ length stories = length good
    /\ Forall2 (fun item s => story_of_row item = Some s) good stories.
Proof.
  intros rows good H. destruct (parse_stories_loop_ok rows H) as (st & E & F).
  exists st. split; [exact E|]. split; [|exact F].
  symmetry. eapply Forall2_length, F.
Qed.

(** X2. The story extractor raises exactly when some row has a title anchor
    and a row identifier but no [href] on the anchor, and then the
    exception is the [KeyError] of the subscript. *)
Theorem parse_stories_raises_iff (soup : Soup.PageElement) :
  parse_stories soup = Raise (KeyError "href") <->
  existsb row_raises (Soup.select Soup.athing soup) = true.
Proof.
  split.
  - intros E. destruct (existsb _ _) eqn:H; [done|].
    destruct (parse_stories_loop_ok _ H) as (st & E' & _).
    unfold parse_stories in E. congruence.
  - apply parse_stories_loop_raises.
Qed.

(** The scenario of the specification: row A well formed, row B without a
    title anchor. *)
Example parse_stories_scenario :
  parse_stories (Examples.doc [Examples.rowA; Examples.rowB]) =
  Ok [Story "1" "Hello" "http://x" None].
Proof. vm_compute. reflexivity. Qed.

(** Markup without rows, the empty document included, gives no stories. *)
Example parse_stories_empty : parse_stories (Examples.doc []) = Ok [].
Proof. reflexivity. Qed.

Example parse_comments_sample :
  parse_comments (Examples.doc [Examples.comment1; Examples.comment2]) =
  [Comment "ann" "First second  line"].
Proof. vm_compute. reflexivity. Qed.

(** ** Stripped text *)

Lemma lstrip_head s : starts_clean (Str.lstrip s).
Proof.
  induction s as [|c s IH]; simpl; [done|].
  destruct (Str.isspace c) eqn:E; [exact IH|exact E].
Qed.

Lemma lstrip_fixed s : starts_clean s -> Str.lstrip s = s.
Proof. destruct s as [|c s]; [done|]. simpl. by intros ->. Qed.

Lemma rstrip_nonspace c s :
  Str.isspace c = false -> Str.rstrip (String c s) = String c (Str.rstrip s).
Proof. intros E. simpl. rewrite E. by destruct (Str.rstrip s). Qed.

Lemma rstrip_starts_clean s : starts_clean s -> starts_clean (Str.rstrip s).
Proof.
  destruct s as [|c s]; [done|]. intros E.
  by rewrite (rstrip_nonspace c s E).
Qed.

Lemma rstrip_cons_nonempty c s :
  Str.rstrip s <> EmptyString ->
  Str.rstrip (String c s) = String c (Str.rstrip s).
Proof. intros H. simpl. by destruct (Str.rstrip s). Qed.

Lemma rstrip_idemp s : Str.rstrip (Str.rstrip s) = Str.rstrip s.
Proof.
  induction s as [|c s IH]; [done|].
  destruct (Str.rstrip s) as [|c' t] eqn:E.
  - simpl. rewrite E. destruct (Str.isspace c) eqn:Ec; [done|].
    simpl. by rewrite Ec.
  - rewrite (rstrip_cons_nonempty c s) by (by rewrite E).
    rewrite E. rewrite (rstrip_cons_nonempty c (String c' t)); by rewrite IH.
Qed.

(** Stripping what is stripped changes nothing. *)
Lemma strip_idemp s : Str.strip (Str.strip s) = Str.strip s.
Proof.
  unfold Str.strip.
  rewrite (lstrip_fixed (Str.rstrip (Str.lstrip s))).
  - apply rstrip_idemp.
  - apply rstrip_starts_clean, lstrip_head.
Qed.

Lemma strip_fixed_parts s :
  Str.strip s = s -> starts_clean s /\ Str.rstrip s = s.
Proof.
  intros E. split.
  - rewrite <- E. apply rstrip_starts_clean, lstrip_head.
  - transitivity (Str.rstrip (Str.strip s)); [by rewrite E|].
    unfold Str.strip in *. by rewrite rstrip_idemp.
Qed.

Lemma strip_fixed_intro s :
  starts_clean s -> Str.rstrip s = s -> Str.strip s = s.
Proof. intros L R. unfold Str.strip. by rewrite (lstrip_fixed s L). Qed.

Lemma rstrip_app a b :
  Str.rstrip b <> EmptyString -> Str.rstrip (a +:+ b) = a +:+ Str.rstrip b.
Proof.
  intros Hb. induction a as [|c a IH]; [done|].
  change (Str.rstrip (String c (a +:+ b)) = String c (a +:+ Str.rstrip b)).
  rewrite rstrip_cons_nonempty; rewrite IH; [done|].
  destruct a; [done|discriminate].
Qed.

(** Non-empty stripped fragments joined by a space make a stripped
    string. *)
Lemma join_stripped parts :
  Forall (fun p => Str.strip p = p /\ p <> EmptyString) parts ->
  Str.strip (Str.join " " parts) = Str.join " " parts.
Proof.
  intros H. destruct parts as [|p parts]; [done|].
  assert (starts_clean (Str.join " " (p :: parts))
          /\ Str.rstrip (Str.join " " (p :: parts)) = Str.join " " (p :: parts)
          /\ Str.join " " (p :: parts) <> EmptyString) as (L & R & _).
  { revert p H. induction parts as [|q parts IH]; intros p H.
    - apply Forall_cons in H as [[E Hne] _].
      destruct (strip_fixed_parts p E) as [L R]. by repeat split.
    - apply Forall_cons in H as [[E Hne] H].
      destruct (strip_fixed_parts p E) as [Lp Rp].
      destruct (IH q H) as (Lq & Rq & Nq).
      change (Str.join " " (p :: q :: parts))
        with (p +:+ " " +:+ Str.join " " (q :: parts)).
      assert (Str.rstrip (" " +:+ Str.join " " (q :: parts))
              = " " +:+ Str.join " " (q :: parts)) as Rs.
      { rewrite rstrip_app; by rewrite Rq. }
      split; [|split].
      + by destruct p.
      + rewrite rstrip_app; by rewrite Rs.
      + by destruct p. }
  by apply strip_fixed_intro.
Qed.

Lemma get_text_stripped el :
  Str.strip (Soup.get_text " " true el) = Soup.get_text " " true el.
Proof.
  unfold Soup.get_text. apply join_stripped.
  induction (Soup.all_strings el) as [|s l IH]; [constructor|].
  simpl. destruct (Str.strip s) eqn:E; simpl; [exact IH|].
  constructor; [|exact IH]. split; [|done]. rewrite <- E. apply strip_idemp.
Qed.

(** ** The records the extractors return *)

Lemma story_of_row_clean item s :
  well_formed_row item = true -> story_of_row item = Some s ->
  story_clean s.
Proof.
  unfold well_formed_row, has_row_id, story_of_row, title_anchor, story_clean.
  destruct (Soup.select_one Soup.titleline_a item) as [a|]; [|done].
  destruct (Soup.get "id" item) as [sid|]; [|done].
  destruct (Soup.get "href" a) as [href|]; [|done].
  intros W [= <-]. simpl. repeat split; try apply strip_idemp.
  by destruct sid.
Qed.

Lemma Forall2_filter_clean rows stories :
  Forall2 (fun item s => story_of_row item = Some s)
          (List.filter well_formed_row rows) stories ->
  Forall story_clean stories.
Proof.
  intros F. remember (List.filter well_formed_row rows) as good eqn:G.
  assert (Forall (fun item => well_formed_row item = true) good) as W.
  { subst good. apply Forall_forall. intros item Hin.
    apply list_elem_of_In, filter_In in Hin. apply Hin. }
  clear G. induction F as [|item s good stories E F IH]; [constructor|].
  apply Forall_cons in W as [Wi W].
  constructor; [by eapply story_of_row_clean|by apply IH].
Qed.

(** X3. Every record of the story extractor has an identifier that is not
    empty, a title and a link without blanks around them, and no comments
    yet. *)
Theorem parse_stories_records_clean (soup : Soup.PageElement) stories :
  parse_stories soup = Ok stories -> Forall story_clean stories.
Proof.
  intros E. unfold parse_stories in E.
  destruct (existsb row_raises (Soup.select Soup.athing soup)) eqn:X.
  - rewrite (parse_stories_loop_raises _ X) in E. done.
  - destruct (parse_stories_loop_ok _ X) as (st & E' & F).
    rewrite E' in E. injection E as <-. by eapply Forall2_filter_clean.
Qed.

(** X7. Every record of the comment extractor has a user name and a text
    without blanks around them. *)
Theorem parse_comments_records_clean (soup : Soup.PageElement) :
  Forall (fun c => Str.strip (user c) = user c /\ Str.strip (text c) = text c)
         (parse_comments soup).
Proof.
  unfold parse_comments.
  pose proof (parse_comments_loop_records (Soup.select Soup.tr_comtr soup))
    as F.
  induction F as [|row c rows cs E F IH]; [constructor|].
  constructor; [|exact IH]. unfold comment_of_row in E.
  destruct (Soup.select_one Soup.hnuser row) as [u|]; [|done].
  destruct (Soup.select_one Soup.commtext row) as [b|]; [|done].
  injection E as <-. simpl. split; [apply strip_idemp|apply get_text_stripped].
Qed.

(** ** Pages made of parts *)

Lemma select_from_parent sel name attrs contents1 contents2 el :
  Soup.select_from sel (Soup.Tag name attrs contents1) el =
  Soup.select_from sel (Soup.Tag name attrs contents2) el.
Proof. by destruct el. Qed.

Lemma select_app sel name attrs xs ys :
  Soup.select sel (Soup.Tag name attrs (xs ++ ys)) =
  Soup.select sel (Soup.Tag name attrs xs)
  ++ Soup.select sel (Soup.Tag name attrs ys).
Proof.
  simpl. rewrite flat_map_app. f_equal; apply flat_map_ext; intros el;
    apply select_from_parent.
Qed.

Lemma parse_stories_loop_app xs ys :
  parse_stories_loop (xs ++ ys) [] =
  (s1 ← parse_stories_loop xs []; s2 ← parse_stories_loop ys [];
   Ok (s1 ++ s2)).
Proof.
  induction xs as [|x xs IH].
  - simpl. by destruct (parse_stories_loop ys []).
  - rewrite <- app_comm_cons, !parse_stories_loop_cons, IH.
    destruct (well_formed_row x); [|done].
    destruct (story_of_row x) as [s|]; [|done].
    destruct (parse_stories_loop xs []) as [s1|e]; [|done]. simpl.
    by destruct (parse_stories_loop ys []).
Qed.

(** X8. The stories of a page are the stories of its first part followed by
    those of the rest; an exception in either part is the exception of the
    whole. *)
Theorem parse_stories_app name attrs (xs ys : list Soup.PageElement) :
  parse_stories (Soup.Tag name attrs (xs ++ ys)) =
  (s1 ← parse_stories (Soup.Tag name attrs xs);
   s2 ← parse_stories (Soup.Tag name attrs ys);
   Ok (s1 ++ s2)).
Proof.
  unfold parse_stories. rewrite select_app. apply parse_stories_loop_app.
Qed.

Lemma parse_comments_loop_app xs ys :
  parse_comments_loop (xs ++ ys) [] =
  parse_comments_loop xs [] ++ parse_comments_loop ys [].
Proof.
  induction xs as [|x xs IH]; [done|].
  rewrite <- app_comm_cons, !parse_comments_loop_cons, IH.
  by destruct (comment_of_row x).
Qed.

(** X9. The comments of a page are the comments of its first part followed by
    those of the rest. *)
Theorem parse_comments_app name attrs (xs ys : list Soup.PageElement) :
  parse_comments (Soup.Tag name attrs (xs ++ ys)) =
  parse_comments (Soup.Tag name attrs xs)
  ++ parse_comments (Soup.Tag name attrs ys).
Proof.
  unfold parse_comments. rewrite select_app. apply parse_comments_loop_app.
Qed.

(** ** Rows inside containers *)

Lemma select_in_container c name attrs (w : Soup.PageElement) :
  Soup.matches (Soup.Single c) w w = false ->
  Soup.select (Soup.Single c) (Soup.Tag name attrs [w]) =
  Soup.select (Soup.Single c) w.
Proof.
  intros M. destruct w as [s|s|wn wa xs]; try done.
  simpl in *. rewrite M, app_nil_r. simpl.
  apply flat_map_ext. intros el. by destruct el.
Qed.

(** X19. The story extractor finds the rows however deep they lie: a page
    that holds one container which is not itself a row has the stories of
    that container. *)
Theorem parse_stories_in_container name attrs (w : Soup.PageElement) :
  is_listing_row w = false ->
  parse_stories (Soup.Tag name attrs [w]) = parse_stories w.
Proof.
  intros M. unfold parse_stories. f_equal.
  exact (select_in_container _ name attrs w M).
Qed.

(** X20. The comment extractor finds the comment rows however deep they
    lie. *)
Theorem parse_comments_in_container name attrs (w : Soup.PageElement) :
  is_comment_row w = false ->
  parse_comments (Soup.Tag name attrs [w]) = parse_comments w.
Proof.
  intros M. unfold parse_comments. f_equal.
  exact (select_in_container _ name attrs w M).
Qed.

(** C1. The story extractor on a page with two well-formed rows (A and
    C, each with a title anchor and a row identifier) around a row without a
    title anchor (B): the anchor of C has no [href], and the extractor raises
    [KeyError] where two records in document order were due. *)
Theorem parse_stories_anchor_without_href :
  map well_formed_row [Examples.rowA; Examples.rowB; Examples.rowC] =
    [true; false; true]
  /\ parse_stories (Examples.doc [Examples.rowA; Examples.rowB; Examples.rowC])
     = Raise (KeyError "href").
Proof. split; vm_compute; reflexivity. Qed.

(** C5. The story extractor is not total: on the page whose only row
    has an identifier and a title anchor without [href] it raises
    [KeyError]. *)
Theorem parse_stories_raises_KeyError :
  parse_stories (Examples.doc [Examples.rowC]) = Raise (KeyError "href").
Proof. vm_compute. reflexivity. Qed.

Lemma parse_stories_well_formed_rows_witness :
  exists stories,
    parse_stories (Examples.doc [Examples.rowA; Examples.rowB]) = Ok stories
    /\ length stories = 1
    /\ Forall2 (fun item s => story_of_row item = Some s)
               [Examples.rowA] stories.
Proof.
  apply (parse_stories_well_formed_rows
           (Examples.doc [Examples.rowA; Examples.rowB])).
  vm_compute. reflexivity.
Defined.

(** ** The pipeline on the sample network *)

(** One worker on three pages: the first has a story, the second has
    none, the third is never claimed. *)
Example worker_sample :
  worker Examples.parser Examples.session
         (Shared [BASE_URL 1; BASE_URL 2; BASE_URL 3] [] []) =
  (Returned,
   Shared [BASE_URL 3]
          [Story "1" "Hello" "http://x"
                 (Some [Comment "ann" "First second  line"])]
          [0]).
Proof. vm_compute. reflexivity. Qed.

Example main_single_sample :
  main_single Examples.parser Examples.session = Ok 1.
Proof. vm_compute. reflexivity. Qed.

Example main_single_down :
  main_single Examples.parser Examples.session_down = Raise ExceptionGroup.
Proof. vm_compute. reflexivity. Qed.

Lemma fetch_story_with_comments_enriches_witness :
  exists h' d',
    fetch_story_with_comments Examples.parser Examples.session
      [Story "1" "Hello" "http://x" None] 0 = Ok (h', 0)
    /\ h' !! 0 = Some d'
    /\ id d' = "1" /\ title d' = "Hello" /\ link d' = "http://x"
    /\ comments d' =
       Some (parse_comments (Examples.parser Examples.item_html))
    /\ length h' = 1
    /\ forall r, r <> 0 -> h' !! r = [Story "1" "Hello" "http://x" None] !! r.
Proof.
  apply (fetch_story_with_comments_enriches Examples.parser Examples.session
           (Examples.doc [Examples.rowA; Examples.rowB])
           [Story "1" "Hello" "http://x" None]
           [Story "1" "Hello" "http://x" None] 0
           (Story "1" "Hello" "http://x" None) Examples.item_html).
  - vm_compute. reflexivity.
  - simpl. left. reflexivity.
  - reflexivity.
  - vm_compute. reflexivity.
Defined.

Lemma worker_halts_witness :
  (worker Examples.parser Examples.session
          (Shared [BASE_URL 1; BASE_URL 2; BASE_URL 3] [] [])).1 = Returned
  /\ queue (worker Examples.parser Examples.session
              (Shared [BASE_URL 1; BASE_URL 2; BASE_URL 3] [] [])).2
     = [BASE_URL 3]
  /\ (run Examples.parser Examples.session [1; 1; 1; 0; 1]
          ([Halted; LoopTop], Shared [BASE_URL 1; BASE_URL 2] [] [])).1.1 !! 0
     = Some Halted.
Proof.
  pose proof (worker_halts_on_empty_queue_or_empty_page
                Examples.parser Examples.session
                (Shared [BASE_URL 1; BASE_URL 2; BASE_URL 3] [] [])
                LoopTop [Halted; LoopTop] 0 [1; 1; 1; 0; 1])
    as (Hiff & _ & Hrest & _ & _).
  pose proof (worker_halts_on_empty_queue_or_empty_page
                Examples.parser Examples.session
                (Shared [BASE_URL 1; BASE_URL 2] [] [])
                LoopTop [Halted; LoopTop] 0 [1; 1; 1; 0; 1])
    as (_ & _ & _ & _ & Hstay).
  split; [|split].
  - apply Hiff. right. exists (BASE_URL 2), [BASE_URL 3].
    split; vm_compute; reflexivity.
  - apply (Hrest (BASE_URL 2)). vm_compute. reflexivity.
  - apply Hstay. reflexivity.
Defined.

Lemma fetch_errors_propagate_witness :
  (exists e,
     (worker Examples.parser Examples.session_down
             (Shared [BASE_URL 1; BASE_URL 2] [] [])).1 = Raised e)
  /\ task_group_body Examples.parser Examples.session_down [] (BASE_URL 1)
     = Raise ExceptionGroup.
Proof.
  pose proof (fetch_errors_propagate
                Examples.parser Examples.session_down
                (Shared [BASE_URL 1; BASE_URL 2] [] []) [] 0 [])
    as (_ & Hbody & Hiff & _).
  assert (raises Examples.parser Examples.session_down (BASE_URL 1)) as R.
  { right. exists [Story "1" "Hello" "http://x" None],
      (Story "1" "Hello" "http://x" None).
    split; [vm_compute; reflexivity|]. split; [left; reflexivity|].
    exists TimeoutError. vm_compute. reflexivity. }
  split.
  - apply Hiff. exists (BASE_URL 1), [BASE_URL 2].
    split; [vm_compute; reflexivity|exact R].
  - apply Hbody, R.
Defined.

Lemma task_group_join_any_order_witness :
  task_group_join Examples.parser Examples.session
    [Story "1" "Hello" "http://x" None; Story "1" "Again" "http://y" None]
    [0; 1]
  = task_group_join Examples.parser Examples.session
      [Story "1" "Hello" "http://x" None; Story "1" "Again" "http://y" None]
      [1; 0].
Proof.
  apply (task_group_join_any_order Examples.parser Examples.session
           [0; 1] [1; 0]).
  apply perm_swap.
Defined.

(** Two workers on the same three pages.  Worker 1 claims the second page
    while worker 0 is still busy with the first, finds no stories and halts
    for good; worker 0 appends its story, claims the third page and fails on
    it. *)
Example pool_sample :
  run Examples.parser Examples.session [0; 1; 1; 0; 1; 0; 0; 0; 1]
      ([LoopTop; LoopTop], Shared [BASE_URL 1; BASE_URL 2; BASE_URL 3] [] []) =
  (([Failed ExceptionGroup; Halted],
    Shared []
           [Story "1" "Hello" "http://x"
                  (Some [Comment "ann" "First second  line"])]
           [0]),
   [(0, Get (BASE_URL 1)); (1, Get (BASE_URL 2)); (0, Extend [0]);
    (0, Get (BASE_URL 3))]).
Proof. vm_compute. reflexivity. Qed.

(** The parent in [.titleline > a] may be the row itself: the selector is
    matched in the whole tree, and only the results are taken from below
    the row. *)
Example title_anchor_under_row :
  parse_stories
    (Examples.doc
       [Examples.el "tr" [("class", "athing titleline"); ("id", "5")]
          [Examples.el "a" [("href", " u ")] [Soup.NavigableString "T"]]]) =
  Ok [Story "5" "T" "u" None].
Proof. vm_compute. reflexivity. Qed.

Lemma parse_stories_records_clean_witness :
  Forall story_clean [Story "1" "Hello" "http://x" None].
Proof.
  apply (parse_stories_records_clean
           (Examples.doc [Examples.rowA; Examples.rowB])).
  vm_compute. reflexivity.
Defined.

Lemma parse_stories_in_container_witness :
  parse_stories
    (Examples.doc [Examples.el "table" [] [Examples.rowA; Examples.rowB]])
  = parse_stories (Examples.el "table" [] [Examples.rowA; Examples.rowB]).
Proof.
  apply (parse_stories_in_container "[document]" ∅
           (Examples.el "table" [] [Examples.rowA; Examples.rowB])).
  vm_compute. reflexivity.
Defined.

Lemma parse_comments_in_container_witness :
  parse_comments
    (Examples.doc
       [Examples.el "table" [] [Examples.comment1; Examples.comment2]])
  = parse_comments
      (Examples.el "table" [] [Examples.comment1; Examples.comment2]).
Proof.
  apply (parse_comments_in_container "[document]" ∅
           (Examples.el "table" [] [Examples.comment1; Examples.comment2])).
  vm_compute. reflexivity.
Defined.

Lemma fetch_story_with_comments_again_witness :
  fetch_story_with_comments Examples.parser Examples.session
    [Story "1" "Hello" "http://x" (Some [Comment "ann" "First second  line"])]
    0
  = Ok ([Story "1" "Hello" "http://x"
               (Some [Comment "ann" "First second  line"])], 0).
Proof.
  apply (fetch_story_with_comments_again Examples.parser Examples.session
           [Story "1" "Hello" "http://x" None]
           [Story "1" "Hello" "http://x"
                  (Some [Comment "ann" "First second  line"])] 0 0).
  vm_compute. reflexivity.
Defined.

Lemma main_single_count_witness :
  1 = length (collected Examples.parser Examples.session (queue setup)).
Proof.
  apply (main_single_count Examples.parser Examples.session 1).
  vm_compute. reflexivity.
Defined.

Lemma pool_finishes_witness :
  forallb finished
    (run Examples.parser Examples.session (concat (replicate 11 [0; 1]))
         ([LoopTop; LoopTop],
          Shared [BASE_URL 1; BASE_URL 2; BASE_URL 3] [] [])).1.1
  = true.
Proof.
  apply (pool_finishes Examples.parser Examples.session
           (replicate 11 [0; 1])
           ([LoopTop; LoopTop],
            Shared [BASE_URL 1; BASE_URL 2; BASE_URL 3] [] [])).
  - apply Forall_replicate. intros [|[|i]] Hi; simpl in *; auto. lia.
  - vm_compute. lia.
Defined.

Lemma main_pooled_reports_witness :
  main_pooled Examples.parser Examples.session
    (concat (replicate 308 (seq 0 8)))
  = Some (length (heap (run Examples.parser Examples.session
                            (concat (replicate 308 (seq 0 8)))
                            (main_pool true)).1.2)).
Proof.
  apply (main_pooled_reports Examples.parser Examples.session
           (replicate 308 (seq 0 8))).
  - apply Forall_replicate. intros i Hi. apply list_elem_of_In, elem_of_seq.
    lia.
  - rewrite length_replicate. lia.
Defined.

(** The pooled run on the sample network: one story, as in the
    single-worker run. *)
Example main_pooled_sample :
  main_pooled Examples.parser Examples.session
    (concat (replicate 308 (seq 0 8))) = Some 1.
Proof. vm_compute. reflexivity. Qed.
